(** * Course3_Week3: bag-of-words ridge pipeline with train/validation/test
    selection

    A shallow embedding of the Part 3 pipeline of [Course3_Week3.ipynb]
    (and of the Part 1 encoder it repeats):

    - cell 46: word counts, [counts], [words], [wordId], [wordSet];
    - cells 16 and 47: the two [feature] functions;
    - cells 49 and 51: shuffle, [X], [y] and the three slices;
    - cell 55: [MSE];
    - cells 56, 57 and 59: the selection loop and the test evaluation.

    Python numbers are kept as the code has them: an [int] is a [Z], a
    [float] (and a [numpy.float64]) is an IEEE 754 binary64 value, taken from
    the specification of floating-point arithmetic of the standard library
    ([SpecFloat], precision 53, maximal exponent 1024).  Exceptions are the
    [Raise] results of an error monad.  The ridge solver of scikit-learn is
    not part of the notebook: it is a parameter of the development
    ([fit] and [predict]). *)

From stdpp Require Import gmap strings list sorting.
From Stdlib Require Import ZArith Lia OrderedTypeEx.
From Stdlib Require Import SpecFloat.

(* ===================================================================== *)
(** * Exceptions and the error monad *)
(* ===================================================================== *)

(** The exceptions the cells can raise.  [ValueError] is the one a library
    call ([fit], [predict]) answers with on input it refuses. *)
Inductive exn : Set :=
  | ZeroDivisionError
  | TypeError
  | KeyError
  | IndexError
  | OverflowError
  | AttributeError
  | ValueError.

Inductive result (A : Type) : Type :=
  | Ok (a : A)
  | Raise (e : exn).
Arguments Ok {A} a.
Arguments Raise {A} e.

#[global] Instance result_ret : MRet result := λ A a, Ok a.
#[global] Instance result_bind : MBind result := λ A B f r,
  match r with
  | Ok a => f a
  | Raise e => Raise e
  end.
#[global] Instance result_fmap : FMap result := λ A B f r,
  match r with
  | Ok a => Ok (f a)
  | Raise e => Raise e
  end.

(** [of_option o e]: the value of [o], or the exception [e]. *)
Definition of_option {A} (o : option A) (e : exn) : result A :=
  match o with
  | Some a => Ok a
  | None => Raise e
  end.

(** [for x in l: acc = body(acc, x)], stopping at the first exception. *)
Fixpoint foldM {A B} (body : B → A → result B) (acc : B) (l : list A) : result B :=
  match l with
  | [] => Ok acc
  | x :: l' => acc' ← body acc x; foldM body acc' l'
  end.

(** A list comprehension [[f(x) for x in l]] whose [f] may raise. *)
Fixpoint mapR {A B} (f : A → result B) (l : list A) : result (list B) :=
  match l with
  | [] => Ok []
  | x :: l' => b ← f x; bs ← mapR f l'; Ok (b :: bs)
  end.

(* ===================================================================== *)
(** * Binary64 numbers *)
(* ===================================================================== *)

Module B64.

Definition prec : Z := 53.
Definition emax : Z := 1024.

Definition add : spec_float → spec_float → spec_float := SFadd prec emax.
Definition sub : spec_float → spec_float → spec_float := SFsub prec emax.
Definition mul : spec_float → spec_float → spec_float := SFmul prec emax.
Definition div : spec_float → spec_float → spec_float := SFdiv prec emax.
Definition ltb : spec_float → spec_float → bool := SFltb.
Definition eqb : spec_float → spec_float → bool := SFeqb.

(** The binary64 value nearest to an integer (ties to even); an integer
    of magnitude [2^1024] or more rounds to an infinity. *)
Definition of_Z (z : Z) : spec_float := binary_normalize prec emax z 0 false.

Definition zero : spec_float := S754_zero false.

Definition is_finite (f : spec_float) : bool :=
  match f with
  | S754_zero _ | S754_finite _ _ _ => true
  | S754_infinity _ | S754_nan => false
  end.

Definition is_nan (f : spec_float) : bool :=
  match f with
  | S754_nan => true
  | _ => false
  end.

End B64.

(** A Python number: the candidate list of cell 57 mixes [float] and [int]
    literals, and [sum] of an empty list is the [int] 0. *)
Inductive pynum : Set :=
  | PyInt (z : Z)
  | PyFloat (f : spec_float).

(** [float(z)] for a Python [int]: [OverflowError] when the integer is too
    large for a binary64. *)
Definition float_of_int (z : Z) : result spec_float :=
  let f := B64.of_Z z in
  if B64.is_finite f then Ok f else Raise OverflowError.

(** The literals [0.01] and [0.1] of cell 57, as the binary64 values the
    reader of Python source produces for them. *)
Definition lit_0_01 : spec_float := S754_finite false 5764607523034235 (-59).
Definition lit_0_1 : spec_float := S754_finite false 7205759403792794 (-56).


(* ===================================================================== *)
(** * Records and text (cells 44 and 46)

    A record of the corpus is a JSON object of which the notebook reads the
    fields [text] and [stars].  Text is a string of characters with the code
    points 0 to 255, read as the first 256 code points of Unicode, and the
    three text operations are those of [str] on these code points: [lower]
    maps [A]-[Z] and the capital letters 192 to 222 (all but the
    multiplication sign 215) to the letter 32 places on, [punctuation] is
    [string.punctuation], and [split] cuts at the twelve of these characters
    that [str.split] counts as white space.  Text with code points from 256
    on is outside this model. *)
(* ===================================================================== *)

Record datum : Set := { text : string; stars : Z }.

Definition code (c : Ascii.ascii) : nat := Ascii.nat_of_ascii c.

Definition between (lo hi n : nat) : bool := (lo <=? n) && (n <=? hi).

(** [c in punctuation], with [punctuation = set(string.punctuation)]: the
    32 characters [!] to [/], [:] to [@], [[] to [`] and [{] to [~]. *)
Definition punctuation (c : Ascii.ascii) : bool :=
  let n := code c in
  between 33 47 n || between 58 64 n || between 91 96 n || between 123 126 n.

(** [c.lower()] for one character: the capital letters are [A] to [Z] and
    the code points 192 to 214 and 216 to 222; each has its small letter
    32 places on. *)
Definition lower_char (c : Ascii.ascii) : Ascii.ascii :=
  let n := code c in
  if between 65 90 n || between 192 214 n || between 216 222 n
  then Ascii.ascii_of_nat (n + 32) else c.

(** [s.lower()] *)
Fixpoint lower (s : string) : string :=
  match s with
  | EmptyString => EmptyString
  | String c s' => String (lower_char c) (lower s')
  end.

(** [''.join([c for c in s if not c in punctuation])] *)
Fixpoint strip_punctuation (s : string) : string :=
  match s with
  | EmptyString => EmptyString
  | String c s' =>
      if punctuation c then strip_punctuation s'
      else String c (strip_punctuation s')
  end.

(** White space of [str.split()]: tab, line feed, vertical tab, form feed,
    carriage return, the four separators 28 to 31, the space, the next-line
    control 133 and the no-break space 160. *)
Definition isspace (c : Ascii.ascii) : bool :=
  let n := code c in
  between 9 13 n || between 28 32 n || (n =? 133) || (n =? 160).

Definition flush (cur : list Ascii.ascii) : list string :=
  match cur with
  | [] => []
  | _ => [String.string_of_list_ascii (rev cur)]
  end.

(** [split_go cur s]: the tokens of [s], the characters of the token being
    read kept in [cur], last one first. *)
Fixpoint split_go (cur : list Ascii.ascii) (s : string) : list string :=
  match s with
  | EmptyString => flush cur
  | String c s' =>
      if isspace c then flush cur ++ split_go [] s'
      else split_go (c :: cur) s'
  end.

(** [s.split()] *)
Definition split (s : string) : list string := split_go [] s.

(** [r.split()] for [r = ''.join([c for c in d['text'].lower() if not c in
    punctuation])]: the tokens both the counting loop and [feature] walk. *)
Definition tokens (d : datum) : list string :=
  split (strip_punctuation (lower (text d))).

(* ===================================================================== *)
(** * Vocabulary (cells 12-14 and 46) *)
(* ===================================================================== *)

(** [wordCount[w] += 1] on a [defaultdict(int)]. *)
Definition count_word (wc : gmap string Z) (w : string) : gmap string Z :=
  <[w := (default 0 (wc !! w) + 1)%Z]> wc.

(** The two nested loops of cell 46. *)
Definition wordCount (dataset : list datum) : gmap string Z :=
  foldl (λ wc d, foldl count_word wc (tokens d)) ∅ dataset.

(** Python's order on the pairs [(count, word)]: counts first, then the
    words, character by character. *)
Definition pair_le (p q : Z * string) : Prop :=
  (p.1 < q.1)%Z ∨ (p.1 = q.1 ∧ String.leb p.2 q.2 = true).

#[global] Instance pair_le_dec p q : Decision (pair_le p q).
Proof. unfold pair_le. apply _. Defined.

(** [counts = [(wordCount[w], w) for w in wordCount]; counts.sort();
    counts.reverse()].  The pairs are pairwise different and the order is
    total, so the sorted list does not depend on the order in which the
    dictionary is walked ([counts_of_unique] below), nor on the sorting
    algorithm. *)
Definition counts_of (wc : gmap string Z) : list (Z * string) :=
  reverse (merge_sort pair_le ((λ kv, (kv.2, kv.1)) <$> map_to_list wc)).

Definition counts (dataset : list datum) : list (Z * string) :=
  counts_of (wordCount dataset).

(** [words = [x[1] for x in counts[:1000]]] *)
Definition words (dataset : list datum) : list string :=
  snd <$> take 1000 (counts dataset).

(** [dict(pairs)]: a later pair replaces an earlier one with the same key. *)
Definition py_dict {V} (pairs : list (string * V)) : gmap string V :=
  foldl (λ m kv, <[kv.1 := kv.2]> m) ∅ pairs.

(** The three globals the encoders read. *)
Record vocabulary : Type := {
  v_words : list string;
  v_wordId : gmap string nat;
  v_wordSet : gset string
}.

(** [wordId = dict(zip(words, range(len(words))))] *)
Definition wordId (ws : list string) : gmap string nat :=
  py_dict (zip ws (seq 0 (length ws))).

(** [wordSet = set(words)] *)
Definition wordSet (ws : list string) : gset string := list_to_set ws.

(** The last two lines of cell 46 (and of cell 14), from a list [ws]. *)
Definition vocabulary_of (ws : list string) : vocabulary :=
  {| v_words := ws; v_wordId := wordId ws; v_wordSet := wordSet ws |}.

Definition cell46 (dataset : list datum) : vocabulary :=
  vocabulary_of (words dataset).

(* ===================================================================== *)
(** * The bag-of-words encoders (cells 16 and 47) *)
(* ===================================================================== *)

(** [feat[wordId[w]] += 1]: [KeyError] when [w] is no key of [wordId],
    [IndexError] when the index is past the end of [feat]. *)
Definition bump (V : vocabulary) (feat : list Z) (w : string) : result (list Z) :=
  i ← of_option (v_wordId V !! w) KeyError;
  x ← of_option (feat !! i) IndexError;
  Ok (<[i := (x + 1)%Z]> feat).

Module Part1.

(** Cell 16: membership is asked of the set [wordSet]. *)
Definition feature (V : vocabulary) (d : datum) : result (list Z) :=
  let feat := replicate (length (v_words V)) 0%Z in
  feat ← foldM (λ feat w,
            if bool_decide (w ∈ v_wordSet V) then bump V feat w else Ok feat)
          feat (tokens d);
  Ok (feat ++ [1%Z]).

End Part1.

Module Part3.

(** Cell 47: membership is asked of the list [words]. *)
Definition feature (V : vocabulary) (d : datum) : result (list Z) :=
  let feat := replicate (length (v_words V)) 0%Z in
  feat ← foldM (λ feat w,
            if bool_decide (w ∈ v_words V) then bump V feat w else Ok feat)
          feat (tokens d);
  Ok (feat ++ [1%Z]).

End Part3.

(** The number of times [w] occurs among the tokens [ts]. *)
Definition occurrences (w : string) (ts : list string) : Z :=
  Z.of_nat (length (filter (λ t, t = w) ts)).

(** The number of times [w] occurs as a token in the whole corpus. *)
Definition frequency (w : string) (dataset : list datum) : Z :=
  occurrences w (dataset ≫= tokens).

(* ===================================================================== *)
(** * Shuffle, features, labels and the three slices (cells 49 and 51) *)
(* ===================================================================== *)

(** [l[lo:hi]] for indices that are not negative. *)
Definition slice {A} (lo hi : nat) (l : list A) : list A := drop lo (take hi l).

Record partitions : Type := {
  X_train : list (list Z);
  X_valid : list (list Z);
  X_test : list (list Z);
  y_train : list Z;
  y_valid : list Z;
  y_test : list Z
}.

(** Cell 51. *)
Definition cell51 (X : list (list Z)) (y : list Z) : partitions :=
  let N := length X in
  {| X_train := take (N / 2) X;
     X_valid := slice (N / 2) (3 * N / 4) X;
     X_test := drop (3 * N / 4) X;
     y_train := take (N / 2) y;
     y_valid := slice (N / 2) (3 * N / 4) y;
     y_test := drop (3 * N / 4) y |}.

(** Cell 49, for the order [shuffled] that [random.shuffle] leaves the
    records in: [X = [feature(d) for d in dataset]] and
    [y = [d['stars'] for d in dataset]]. *)
Definition cell49 (V : vocabulary) (shuffled : list datum) : result (list (list Z) * list Z) :=
  X ← mapR (Part3.feature V) shuffled;
  Ok (X, stars <$> shuffled).

(** Cells 46, 49 and 51 in a row.  [shuffle] stands for [random.shuffle]
    with the state its generator is in. *)
Definition cells_46_to_51 (shuffle : list datum → list datum) (dataset : list datum) : result partitions :=
  let V := cell46 dataset in
  Xy ← cell49 V (shuffle dataset);
  Ok (cell51 Xy.1 Xy.2).

(* ===================================================================== *)
(** * Mean squared error (cell 55) *)
(* ===================================================================== *)

(** [(a-b)**2] for a prediction [a] (a [numpy.float64]) and a label [b] (an
    [int]): the label is converted, the difference is rounded, and its
    square is taken as the rounded product of the difference with itself. *)
Definition sqdiff (a : spec_float) (b : Z) : result spec_float :=
  fb ← float_of_int b;
  let d := B64.sub a fb in
  Ok (B64.mul d d).

(** [a == b] for a [numpy.float64] [a] and an [int] [b]. *)
Definition float_eq_int (a : spec_float) (b : Z) : result bool :=
  fb ← float_of_int b;
  Ok (B64.eqb a fb).

(** [sum(differences)]: the sum starts from the [int] 0, which an empty
    list leaves untouched and the first addition of a float converts. *)
Definition py_sum (differences : list spec_float) : pynum :=
  match differences with
  | [] => PyInt 0
  | _ => PyFloat (foldl B64.add (B64.of_Z 0) differences)
  end.

(** [total / len(l)].  An [int] divided by the [int] 0 raises; a
    [numpy.float64] divided by a length (below [2^63], so its conversion
    cannot overflow) is the rounded quotient, also for the length 0, where
    numpy warns and answers an infinity or a NaN.  The quotient of two
    [int]s is given through their conversions, which is exact for the only
    total [MSE] divides as an [int], the 0 of an empty sum. *)
Definition py_truediv (total : pynum) (len : nat) : result spec_float :=
  match total with
  | PyInt z =>
      if decide (len = 0) then Raise ZeroDivisionError
      else Ok (B64.div (B64.of_Z z) (B64.of_Z (Z.of_nat len)))
  | PyFloat f => Ok (B64.div f (B64.of_Z (Z.of_nat len)))
  end.

(** The body of [MSE] once [model.predict(X)] has answered. *)
Definition mse_of (predictions : list spec_float) (y : list Z) : result spec_float :=
  differences ← mapR (λ ab, sqdiff ab.1 ab.2) (zip predictions y);
  py_truediv (py_sum differences) (length differences).

(* ===================================================================== *)
(** * Selection and test evaluation (cells 55, 56, 57 and 59) *)
(* ===================================================================== *)

Inductive part : Set := Train | Valid | Test.

(** What a run leaves behind: the partitions it read, in order, and the
    lines it printed (with the numbers they show, not their digits). *)
Inductive event : Set :=
  | Load_X (p : part)
  | Load_y (p : part)
  | Print_candidate (lamb : pynum) (mseTrain mseValid : spec_float)
  | Print_test (mseTest : spec_float).

Definition reads_test (ev : event) : bool :=
  match ev with
  | Load_X Test | Load_y Test => true
  | _ => false
  end.

Definition is_print_test (ev : event) : bool :=
  match ev with
  | Print_test _ => true
  | _ => false
  end.

(** [for lamb in [0.01, 0.1, 1, 10, 100]] *)
Definition candidates : list pynum :=
  [PyFloat lit_0_01; PyFloat lit_0_1; PyInt 1; PyInt 10; PyInt 100].

Section Ridge.

(** A fitted [linear_model.Ridge].  [fit lamb X y] is
    [Ridge(lamb, fit_intercept=False)] followed by [.fit(X, y)];
    [predict model X] is [model.predict(X)].  Either may raise. *)
Variable Model : Type.
Variable fit : pynum → list (list Z) → list Z → result Model.
Variable predict : Model → list (list Z) → result (list spec_float).

(** Cell 55. *)
Definition MSE (model : Model) (X : list (list Z)) (y : list Z) : result spec_float :=
  predictions ← predict model X;
  mse_of predictions y.

(** The global variables cells 56 to 59 pass from one to the next.  A turn
    of the loop also binds the module-level names [lamb], [model],
    [mseTrain] and [mseValid]; it assigns each before it reads it, so
    they are values of the turn here, and [namespace] below is the state
    with these four names in it.  Each turn builds a new [Ridge] object,
    so the model [bestModel] holds is not touched by later fits. *)
Record globals : Type := {
  data : partitions;
  bestModel : option Model;
  bestMSE : option spec_float
}.

(** A piece of a cell: from the globals to the events it leaves, the
    globals after it and its value or exception. *)
Definition cell (A : Type) : Type := globals → list event * globals * result A.

#[local] Instance cell_ret : MRet cell := λ A a g, ([], g, Ok a).
#[local] Instance cell_bind : MBind cell := λ A B f m g,
  match m g with
  | (t, g', Ok a) =>
      match f a g' with
      | (t', g'', r) => (t ++ t', g'', r)
      end
  | (t, g', Raise e) => (t, g', Raise e)
  end.

Definition lift {A} (r : result A) : cell A := λ g, ([], g, r).
Definition emit (ev : event) : cell unit := λ g, ([ev], g, Ok ()).

Definition part_X (p : part) (d : partitions) : list (list Z) :=
  match p with Train => X_train d | Valid => X_valid d | Test => X_test d end.
Definition part_y (p : part) (d : partitions) : list Z :=
  match p with Train => y_train d | Valid => y_valid d | Test => y_test d end.

Definition load_X (p : part) : cell (list (list Z)) :=
  λ g, ([Load_X p], g, Ok (part_X p (data g))).
Definition load_y (p : part) : cell (list Z) :=
  λ g, ([Load_y p], g, Ok (part_y p (data g))).
Definition load_bestModel : cell (option Model) := λ g, ([], g, Ok (bestModel g)).
Definition load_bestMSE : cell (option spec_float) := λ g, ([], g, Ok (bestMSE g)).
Definition store_bestModel (m : option Model) : cell unit :=
  λ g, ([], {| data := data g; bestModel := m; bestMSE := bestMSE g |}, Ok ()).
Definition store_bestMSE (v : option spec_float) : cell unit :=
  λ g, ([], {| data := data g; bestModel := bestModel g; bestMSE := v |}, Ok ()).

(** [for x in l: body(x)] *)
Fixpoint for_each {A} (l : list A) (body : A → cell unit) : cell unit :=
  match l with
  | [] => mret ()
  | x :: l' => body x;; for_each l' body
  end.

(** Cell 56. *)
Definition cell56 : cell unit :=
  store_bestModel None;; store_bestMSE None.

(** [mseValid < bestMSE]: a number against [None] is a [TypeError]. *)
Definition less_than_best (mseValid : spec_float) (best : option spec_float) : result bool :=
  match best with
  | Some b => Ok (B64.ltb mseValid b)
  | None => Raise TypeError
  end.

(** [not bestModel or mseValid < bestMSE].  The class [Ridge] has neither
    [__bool__] nor [__len__], so a model is true and [not bestModel]
    holds of [None] only; [or] does not look at its right side then. *)
Definition improves (mseValid : spec_float) : cell bool :=
  bm ← load_bestModel;
  match bm with
  | None => mret true
  | Some _ => b ← load_bestMSE; lift (less_than_best mseValid b)
  end.

(** One turn of the loop of cell 57. *)
Definition cell57_body (lamb : pynum) : cell unit :=
  Xf ← load_X Train;
  yf ← load_y Train;
  model ← lift (fit lamb Xf yf);
  Xt ← load_X Train;
  yt ← load_y Train;
  mseTrain ← lift (MSE model Xt yt);
  Xv ← load_X Valid;
  yv ← load_y Valid;
  mseValid ← lift (MSE model Xv yv);
  emit (Print_candidate lamb mseTrain mseValid);;
  better ← improves mseValid;
  if better : bool then
    store_bestModel (Some model);; store_bestMSE (Some mseValid)
  else mret ().

(** The loop of cell 57 over a list of candidates, and cell 57. *)
Definition selection_loop (lambs : list pynum) : cell unit :=
  for_each lambs cell57_body.

Definition cell57 : cell unit := selection_loop candidates.

(** Cell 59.  [MSE(None, ...)] fails on [None.predict]. *)
Definition cell59 : cell spec_float :=
  bm ← load_bestModel;
  Xs ← load_X Test;
  ys ← load_y Test;
  model ← lift (of_option bm AttributeError);
  mseTest ← lift (MSE model Xs ys);
  emit (Print_test mseTest);;
  mret mseTest.

(** Cells 56 and 57 in a row, over a list of candidates. *)
Definition select (lambs : list pynum) : cell unit :=
  cell56;; selection_loop lambs.

Definition cells_56_57 : cell unit := select candidates.

(** Cells 56, 57 and 59 in a row, over a list of candidates. *)
Definition select_and_test (lambs : list pynum) : cell spec_float :=
  cell56;; selection_loop lambs;; cell59.

Definition cells_56_to_59 : cell spec_float := select_and_test candidates.

(** The globals before cell 56 runs. *)
Definition initial (d : partitions) : globals :=
  {| data := d; bestModel := None; bestMSE := None |}.

(** What one turn of the loop computes for a candidate: the model fitted
    on the training partition, its error there and its error on the
    validation partition. *)
Record evaluation : Type := {
  ev_model : Model;
  ev_train : spec_float;
  ev_valid : spec_float
}.

Definition evaluate (d : partitions) (lamb : pynum) : result evaluation :=
  model ← fit lamb (X_train d) (y_train d);
  mseTrain ← MSE model (X_train d) (y_train d);
  mseValid ← MSE model (X_valid d) (y_valid d);
  Ok {| ev_model := model; ev_train := mseTrain; ev_valid := mseValid |}.

(** The events of a turn that runs to its end. *)
Definition candidate_trace (lamb : pynum) (ev : evaluation) : list event :=
  [Load_X Train; Load_y Train; Load_X Train; Load_y Train;
   Load_X Valid; Load_y Valid;
   Print_candidate lamb (ev_train ev) (ev_valid ev)].

(** The selection as the specification words it: a reduction over the
    evaluated candidates that keeps the best one so far and replaces it
    only by a candidate with a strictly smaller validation error. *)
Definition keep (best : option evaluation) (ev : evaluation) : option evaluation :=
  match best with
  | None => Some ev
  | Some b => if B64.ltb (ev_valid ev) (ev_valid b) then Some ev else best
  end.

(** The globals with a given selection. *)
Definition with_best (g : globals) (best : option evaluation) : globals :=
  {| data := data g;
     bestModel := ev_model <$> best;
     bestMSE := ev_valid <$> best |}.

(** No event of [t] touches the test partition or reports a test error. *)
Definition test_free (t : list event) : Prop :=
  Forall (λ ev, reads_test ev = false ∧ is_print_test ev = false) t.

End Ridge.

Arguments MSE {Model} predict model X y.
Arguments globals Model : clear implicits.
Arguments data {Model} g.
Arguments bestModel {Model} g.
Arguments bestMSE {Model} g.
Arguments cell Model A : clear implicits.
Arguments cell56 {Model}.
Arguments cell57_body {Model} fit predict lamb.
Arguments selection_loop {Model} fit predict lambs.
Arguments cell57 {Model} fit predict.
Arguments cell59 {Model} predict.
Arguments select {Model} fit predict lambs.
Arguments cells_56_57 {Model} fit predict.
Arguments select_and_test {Model} fit predict lambs.
Arguments cells_56_to_59 {Model} fit predict.
Arguments initial {Model} d.
Arguments evaluation Model : clear implicits.
Arguments ev_model {Model} e.
Arguments ev_train {Model} e.
Arguments ev_valid {Model} e.
Arguments evaluate {Model} fit predict d lamb.
Arguments candidate_trace {Model} lamb ev.
Arguments keep {Model} best ev.
Arguments with_best {Model} g best.

(* ===================================================================== *)
(** * Cell 57 with every name it binds

    Cells 56 and 57 are module-level code: besides [bestModel] and
    [bestMSE], every turn of the loop binds the module-level names
    [lamb], [model], [mseTrain] and [mseValid], of which [model] is the
    name cells 31 and 36 read.  Here the state holds these names too. *)
(* ===================================================================== *)

Section Names.

Variable Model : Type.
Variable fit : pynum → list (list Z) → list Z → result Model.
Variable predict : Model → list (list Z) → result (list spec_float).

(** What the name [model] holds: the object [Ridge(lamb,
    fit_intercept=False)] as built, until [fit] has returned, and the
    fitted model from then on. *)
Inductive estimator : Type :=
  | Unfitted (lamb : pynum)
  | Fitted (m : Model).

(** The module-level names of cells 56 to 59; [None] is a name bound to
    [None] for [bestModel] and [bestMSE], and a name not bound by these
    cells for the other four. *)
Record namespace : Type := {
  ns_data : partitions;
  ns_bestModel : option Model;
  ns_bestMSE : option spec_float;
  ns_lamb : option pynum;
  ns_model : option estimator;
  ns_mseTrain : option spec_float;
  ns_mseValid : option spec_float
}.

(** A statement: from the names to the events it leaves, the names after
    it and its value or exception. *)
Definition stmt (A : Type) : Type := namespace → list event * namespace * result A.

#[local] Instance stmt_ret : MRet stmt := λ A a g, ([], g, Ok a).
#[local] Instance stmt_bind : MBind stmt := λ A B f m g,
  match m g with
  | (t, g', Ok a) =>
      match f a g' with
      | (t', g'', r) => (t ++ t', g'', r)
      end
  | (t, g', Raise e) => (t, g', Raise e)
  end.

Definition ns_lift {A} (r : result A) : stmt A := λ g, ([], g, r).
Definition ns_emit (ev : event) : stmt unit := λ g, ([ev], g, Ok ()).

Definition read_X (p : part) : stmt (list (list Z)) :=
  λ g, ([Load_X p], g, Ok (part_X p (ns_data g))).
Definition read_y (p : part) : stmt (list Z) :=
  λ g, ([Load_y p], g, Ok (part_y p (ns_data g))).
Definition read_bestModel : stmt (option Model) := λ g, ([], g, Ok (ns_bestModel g)).
Definition read_bestMSE : stmt (option spec_float) := λ g, ([], g, Ok (ns_bestMSE g)).

Definition bind_bestModel (m : option Model) : stmt unit :=
  λ g, ([], {| ns_data := ns_data g; ns_bestModel := m; ns_bestMSE := ns_bestMSE g;
               ns_lamb := ns_lamb g; ns_model := ns_model g;
               ns_mseTrain := ns_mseTrain g; ns_mseValid := ns_mseValid g |}, Ok ()).
Definition bind_bestMSE (v : option spec_float) : stmt unit :=
  λ g, ([], {| ns_data := ns_data g; ns_bestModel := ns_bestModel g; ns_bestMSE := v;
               ns_lamb := ns_lamb g; ns_model := ns_model g;
               ns_mseTrain := ns_mseTrain g; ns_mseValid := ns_mseValid g |}, Ok ()).
Definition bind_lamb (lamb : pynum) : stmt unit :=
  λ g, ([], {| ns_data := ns_data g; ns_bestModel := ns_bestModel g;
               ns_bestMSE := ns_bestMSE g;
               ns_lamb := Some lamb; ns_model := ns_model g;
               ns_mseTrain := ns_mseTrain g; ns_mseValid := ns_mseValid g |}, Ok ()).
Definition bind_model (m : estimator) : stmt unit :=
  λ g, ([], {| ns_data := ns_data g; ns_bestModel := ns_bestModel g;
               ns_bestMSE := ns_bestMSE g;
               ns_lamb := ns_lamb g; ns_model := Some m;
               ns_mseTrain := ns_mseTrain g; ns_mseValid := ns_mseValid g |}, Ok ()).
Definition bind_mseTrain (v : spec_float) : stmt unit :=
  λ g, ([], {| ns_data := ns_data g; ns_bestModel := ns_bestModel g;
               ns_bestMSE := ns_bestMSE g;
               ns_lamb := ns_lamb g; ns_model := ns_model g;
               ns_mseTrain := Some v; ns_mseValid := ns_mseValid g |}, Ok ()).
Definition bind_mseValid (v : spec_float) : stmt unit :=
  λ g, ([], {| ns_data := ns_data g; ns_bestModel := ns_bestModel g;
               ns_bestMSE := ns_bestMSE g;
               ns_lamb := ns_lamb g; ns_model := ns_model g;
               ns_mseTrain := ns_mseTrain g; ns_mseValid := Some v |}, Ok ()).

(** Cell 56. *)
Definition cell56_names : stmt unit :=
  bind_bestModel None;; bind_bestMSE None.

(** One turn of the loop of cell 57, statement by statement.  [fit]
    works on the object [model] is bound to, so the name holds the fitted
    model once [fit] has returned, and the object as built if it raises. *)
Definition cell57_turn (lamb : pynum) : stmt unit :=
  bind_lamb lamb;;
  bind_model (Unfitted lamb);;
  Xf ← read_X Train;
  yf ← read_y Train;
  model ← ns_lift (fit lamb Xf yf);
  bind_model (Fitted model);;
  Xt ← read_X Train;
  yt ← read_y Train;
  mseTrain ← ns_lift (MSE predict model Xt yt);
  bind_mseTrain mseTrain;;
  Xv ← read_X Valid;
  yv ← read_y Valid;
  mseValid ← ns_lift (MSE predict model Xv yv);
  bind_mseValid mseValid;;
  ns_emit (Print_candidate lamb mseTrain mseValid);;
  bm ← read_bestModel;
  better ← match bm with
           | None => mret true
           | Some _ => b ← read_bestMSE; ns_lift (less_than_best mseValid b)
           end;
  if better : bool then
    bind_bestModel (Some model);; bind_bestMSE (Some mseValid)
  else mret ().

(** The loop of cell 57 over a list of candidates, and cell 57. *)
Fixpoint cell57_turns (lambs : list pynum) : stmt unit :=
  match lambs with
  | [] => mret ()
  | lamb :: rest => cell57_turn lamb;; cell57_turns rest
  end.

Definition cell57_names : stmt unit := cell57_turns candidates.

(** Cells 56 and 57 in a row, over a list of candidates. *)
Definition select_names (lambs : list pynum) : stmt unit :=
  cell56_names;; cell57_turns lambs.

(** The names with the four names of the loop bound anew. *)
Definition with_names (g : namespace) (l : option pynum) (m : option estimator)
    (mt mv : option spec_float) : namespace :=
  {| ns_data := ns_data g; ns_bestModel := ns_bestModel g; ns_bestMSE := ns_bestMSE g;
     ns_lamb := l; ns_model := m; ns_mseTrain := mt; ns_mseValid := mv |}.

(** The three globals of [globals] among the names. *)
Definition globals_of (g : namespace) : globals Model :=
  {| data := ns_data g; bestModel := ns_bestModel g; bestMSE := ns_bestMSE g |}.

(** From [g] to [g'] over the candidates [lambs]: the partitions are the
    same, and [bestModel] and [bestMSE] are either both as they were or
    both replaced, by the model and the validation error of one and the
    same candidate of [lambs], whose error is strictly smaller than the
    error [g] held, if it held one. *)
Definition selects_among (lambs : list pynum) (g g' : namespace) : Prop :=
  ns_data g' = ns_data g
  ∧ ((ns_bestModel g' = ns_bestModel g ∧ ns_bestMSE g' = ns_bestMSE g)
     ∨ ∃ lamb ev,
         lamb ∈ lambs
         ∧ evaluate fit predict (ns_data g) lamb = Ok ev
         ∧ ns_bestModel g' = Some (ev_model ev)
         ∧ ns_bestMSE g' = Some (ev_valid ev)
         ∧ ∀ b, ns_bestMSE g = Some b → B64.ltb (ev_valid ev) b = true).

(** The four names of the loop as a finished turn over [lamb] leaves
    them. *)
Definition bound_by_turn (lamb : pynum) (g' : namespace) : Prop :=
  ∃ ev,
    evaluate fit predict (ns_data g') lamb = Ok ev
    ∧ ns_lamb g' = Some lamb
    ∧ ns_model g' = Some (Fitted (ev_model ev))
    ∧ ns_mseTrain g' = Some (ev_train ev)
    ∧ ns_mseValid g' = Some (ev_valid ev).

(** [bestModel] and [bestMSE] hold [None] together. *)
Definition ns_paired (g : namespace) : Prop :=
  ns_bestModel g = None ↔ ns_bestMSE g = None.

End Names.

Arguments Unfitted {Model} lamb.
Arguments Fitted {Model} m.
Arguments ns_data {Model} n.
Arguments ns_bestModel {Model} n.
Arguments ns_bestMSE {Model} n.
Arguments ns_lamb {Model} n.
Arguments ns_model {Model} n.
Arguments ns_mseTrain {Model} n.
Arguments ns_mseValid {Model} n.
Arguments cell56_names {Model}.
Arguments cell57_turn {Model} fit predict lamb.
Arguments cell57_turns {Model} fit predict lambs.
Arguments cell57_names {Model} fit predict.
Arguments select_names {Model} fit predict lambs.
Arguments globals_of {Model} g.
Arguments with_names {Model} g l m mt mv.
Arguments selects_among {Model} fit predict lambs g g'.
Arguments bound_by_turn {Model} fit predict lamb g'.
Arguments ns_paired {Model} g.


(* ===================================================================== *)
(** * A stand-in for the solver, and a small corpus, to run the cells on *)
(* ===================================================================== *)

Module Toy.

(** The fitted model is one number, which [predict] answers for every row;
    [fit] takes it to be the regularization strength. *)
Definition fit (lamb : pynum) (X : list (list Z)) (y : list Z) : result spec_float :=
  match lamb with
  | PyInt z => float_of_int z
  | PyFloat f => Ok f
  end.

Definition predict (model : spec_float) (X : list (list Z)) : result (list spec_float) :=
  Ok ((λ _, model) <$> X).

(** A model whose [predict] refuses every input. *)
Definition refuse (model : spec_float) (X : list (list Z)) : result (list spec_float) :=
  Raise ValueError.

Definition reviews : list datum :=
  [ {| text := "Good food, GOOD place!"; stars := 5 |};
    {| text := "bad  food. Bad service"; stars := 1 |};
    {| text := "Great place"; stars := 4 |};
    {| text := "The food was good"; stars := 4 |};
    {| text := "so-so"; stars := 3 |} ].

(** Eight rows with their labels, cut by cell 51. *)
Definition parts : partitions :=
  cell51 [[1; 1]; [2; 1]; [0; 1]; [1; 1]; [3; 1]; [0; 1]; [2; 1]; [1; 1]]%Z
         [1; 1; 1; 1; 10; 10; 3; 3]%Z.

End Toy.

(* ===================================================================== *)
(** * The other cells: the word counts of Part 1, Part 2, the sizes *)
(* ===================================================================== *)

(** The characters of a string, first one first. *)
Definition chars (s : string) : list Ascii.ascii := String.list_ascii_of_string s.

(** What cells 8 to 47 make of a piece of text before they split it. *)
Definition normalize (s : string) : string := strip_punctuation (lower s).

(** Cell 6: the words are those of [d['text'].split()], as they stand.
    (Cell 8 and cell 12 are the loop of cell 46, [wordCount].) *)
Definition wordCount6 (dataset : list datum) : gmap string Z :=
  foldl (λ wc d, foldl count_word wc (split (text d))) ∅ dataset.

(** Cell 10: each token is replaced by [stemmer.stem(w)] before it is
    counted.  The stemmer is NLTK's; it is a parameter here. *)
Definition wordCount10 (stem : string → string) (dataset : list datum) : gmap string Z :=
  foldl (λ wc d, foldl (λ wc w, count_word wc (stem w)) wc (tokens d)) ∅ dataset.

(** The sum of the entries of a feature vector. *)
Definition total (feat : list Z) : Z := foldr Z.add 0%Z feat.

(** Cell 52: [len(X), len(X_train), len(X_valid), len(X_test)]. *)
Definition cell52 (X : list (list Z)) (P : partitions) : nat * nat * nat * nat :=
  (length X, length (X_train P), length (X_valid P), length (X_test P)).

Module Part2.

(** Cells 36 to 39: [predictions = model.predict(X)], the squared
    differences and their mean, which the cell calls [MSE]. *)
Definition cells_36_39 {Model : Type}
    (predict : Model → list (list Z) → result (list spec_float))
    (model : Model) (X : list (list Z)) (y : list Z) : result spec_float :=
  predictions ← predict model X;
  differences ← mapR (λ xy, sqdiff xy.1 xy.2) (zip predictions y);
  py_truediv (py_sum differences) (length differences).

(** Cell 41, for the value [var] that [numpy.var(y)] answers:
    [FVU = MSE / numpy.var(y)] and [R2 = 1 - FVU].  Both operands of the
    division are [numpy.float64]: a zero variance gives an infinity or a
    NaN, with a warning and no exception. *)
Definition FVU (mse var : spec_float) : spec_float := B64.div mse var.

Definition R2 (mse var : spec_float) : spec_float :=
  B64.sub (B64.of_Z 1) (FVU mse var).

End Part2.

(** The characters of a pending word ([cur] of [split_go]) once put in
    lower case and stripped of punctuation. *)
Definition normc (cur : list Ascii.ascii) : list Ascii.ascii :=
  filter (λ c, punctuation c = false) (lower_char <$> cur).

(** A number with the sign bit set: a negative number, [-0.0] or [-inf]. *)
Definition negative (f : spec_float) : bool :=
  match f with
  | S754_nan => false
  | S754_zero s | S754_infinity s | S754_finite s _ _ => s
  end.

(** More stand-ins, for the examples of the other cells. *)
Module Sample.

(** A solver that refuses a strength of 10 or more. *)
Definition fit_below_ten (lamb : pynum) (X : list (list Z)) (y : list Z) : result spec_float :=
  match lamb with
  | PyInt z => if (10 <=? z)%Z then Raise ValueError else float_of_int z
  | PyFloat f => Ok f
  end.

(** A [predict] that, like the library's, checks its input first: a
    feature list without a row is refused with [ValueError]; every row of
    another gets the model's number. *)
Definition predict_rows (model : spec_float) (X : list (list Z)) : result (list spec_float) :=
  match X with
  | [] => Raise ValueError
  | _ :: _ => Ok ((λ _, model) <$> X)
  end.

(** The names as Part 1 leaves them for cell 56: [model] holds the model
    of cell 29, fitted with the strength 1.0, and the loop has not run. *)
Definition part1_names : namespace spec_float :=
  {| ns_data := Toy.parts; ns_bestModel := None; ns_bestMSE := None;
     ns_lamb := None; ns_model := Some (Fitted (B64.of_Z 1));
     ns_mseTrain := None; ns_mseValid := None |}.

(** Globals out of step: [wordId] was emptied after [words] was built. *)
Definition stale : vocabulary :=
  {| v_words := ["food"]; v_wordId := ∅; v_wordSet := {["food"]} |}.

(** Records without a token. *)
Definition quiet : list datum :=
  [ {| text := "!!! ... ?"; stars := 2 |}; {| text := ""; stars := 5 |} ].

End Sample.

(* ===================================================================== *)
(** * Facts about binary64 numbers *)
(* ===================================================================== *)

Module B64Facts.
Local Open Scope Z_scope.

Lemma digits2_pos_lower (p : positive) :
  2 ^ (Z.pos (digits2_pos p) - 1) ≤ Z.pos p.
Proof.
  induction p as [p IH|p IH|]; simpl digits2_pos.
  - rewrite Pos2Z.inj_succ.
    replace (Z.succ (Z.pos (digits2_pos p)) - 1) with (Z.succ (Z.pos (digits2_pos p) - 1)) by lia.
    rewrite Z.pow_succ_r by lia. lia.
  - rewrite Pos2Z.inj_succ.
    replace (Z.succ (Z.pos (digits2_pos p)) - 1) with (Z.succ (Z.pos (digits2_pos p) - 1)) by lia.
    rewrite Z.pow_succ_r by lia. lia.
  - simpl. lia.
Qed.

Lemma shr_1_m (mrs : shr_record) :
  0 ≤ shr_m mrs → shr_m (shr_1 mrs) = Z.div2 (shr_m mrs).
Proof.
  destruct mrs as [m r s]; simpl. destruct m as [|[p|p|]|p]; simpl; try reflexivity; lia.
Qed.

Lemma shr_1_lower (k : Z) (mrs : shr_record) :
  0 ≤ k → 2 ^ (k + 1) ≤ shr_m mrs → 2 ^ k ≤ shr_m (shr_1 mrs).
Proof.
  intros Hk H.
  assert (0 < 2 ^ (k + 1)) by (apply Z.pow_pos_nonneg; lia).
  rewrite shr_1_m by lia. rewrite Z.div2_div.
  apply Z.div_le_lower_bound; [lia|].
  rewrite Z.pow_add_r in H by lia. lia.
Qed.

Lemma iter_pos_lower (q : positive) :
  ∀ (k : Z) (mrs : shr_record),
    0 ≤ k → 2 ^ (k + Z.pos q) ≤ shr_m mrs → 2 ^ k ≤ shr_m (SpecFloat.iter_pos shr_1 q mrs).
Proof.
  induction q as [q IH|q IH|]; intros k mrs Hk H; simpl.
  - apply IH; [lia|]. apply IH; [lia|]. apply shr_1_lower; [lia|].
    replace (k + Z.pos q + Z.pos q + 1) with (k + Z.pos q~1) by lia. exact H.
  - apply IH; [lia|]. apply IH; [lia|].
    replace (k + Z.pos q + Z.pos q) with (k + Z.pos q~0) by lia. exact H.
  - apply shr_1_lower; assumption.
Qed.

Lemma shr_record_of_loc_m (m : Z) (l : location) : shr_m (shr_record_of_loc m l) = m.
Proof. destruct l as [|[]]; reflexivity. Qed.

Lemma shr_fexp_pos (m e : Z) (l : location) :
  0 < m → -1074 ≤ e →
  0 < shr_m (shr_fexp B64.prec B64.emax m e l).1 ∧ -1074 ≤ (shr_fexp B64.prec B64.emax m e l).2.
Proof.
  intros Hm He. destruct m as [|p|p]; try lia.
  unfold shr_fexp, shr, Zdigits2, fexp, emin, B64.prec, B64.emax.
  pose proof (digits2_pos_lower p) as Hd.
  destruct (Z.max (Z.pos (digits2_pos p) + e - 53) (3 - 1024 - 53) - e) as [|q|q] eqn:Hn;
    simpl; rewrite ?shr_record_of_loc_m; try lia.
  split; [|lia].
  assert (2 ^ (0 + Z.pos q) ≤ Z.pos p) as Hq.
  { etrans; [|exact Hd]. apply Z.pow_le_mono_r; lia. }
  rewrite <- (shr_record_of_loc_m (Z.pos p) l) in Hq.
  apply iter_pos_lower in Hq; [|lia]. simpl in Hq. lia.
Qed.

Lemma round_nearest_even_pos (m : Z) (l : location) : 0 < m → 0 < round_nearest_even m l.
Proof. intros Hm. destruct l as [|[]]; simpl; try lia. destruct (Z.even m); lia. Qed.

Lemma binary_round_aux_pos (s : bool) (m e : Z) (l : location) :
  0 < m → -1074 ≤ e →
  (∃ m' e', binary_round_aux B64.prec B64.emax s m e l = S754_finite s m' e')
  ∨ binary_round_aux B64.prec B64.emax s m e l = S754_infinity s.
Proof.
  intros Hm He. unfold binary_round_aux.
  pose proof (shr_fexp_pos m e l Hm He) as [H1 H2].
  destruct (shr_fexp B64.prec B64.emax m e l) as [mrs' e']; simpl in H1, H2.
  pose proof (round_nearest_even_pos _ (loc_of_shr_record mrs') H1) as H3.
  pose proof (shr_fexp_pos _ e' loc_Exact H3 H2) as [H4 _].
  destruct (shr_fexp B64.prec B64.emax _ e' loc_Exact) as [mrs'' e'']; simpl in H4.
  destruct (shr_m mrs'') as [|p|p]; try lia.
  destruct (e'' <=? B64.emax - B64.prec); eauto.
Qed.

Lemma binary_round_pos (s : bool) (p : positive) (e : Z) :
  -1074 ≤ e →
  (∃ m' e', binary_round B64.prec B64.emax s p e = S754_finite s m' e')
  ∨ binary_round B64.prec B64.emax s p e = S754_infinity s.
Proof.
  intros He. unfold binary_round, shl_align.
  set (e1 := fexp B64.prec B64.emax (Z.pos (digits2_pos p) + e)).
  assert (-1074 ≤ e1) by (subst e1; unfold fexp, emin, B64.prec, B64.emax; lia).
  destruct (e1 - e); apply binary_round_aux_pos; lia.
Qed.

(** The conversion of a positive integer is a positive number or [+inf]:
    it is neither a zero nor a NaN. *)
Lemma of_Z_pos (z : Z) :
  0 < z →
  (∃ m e, B64.of_Z z = S754_finite false m e) ∨ B64.of_Z z = S754_infinity false.
Proof.
  intros Hz. destruct z as [|p|p]; try lia.
  apply (binary_round_pos false p 0). lia.
Qed.


Ltac cmp_cases :=
  repeat match goal with
  | |- context [(?a ?= ?b)%Z] => destruct (Z.compare_spec a b)
  | |- context [Pos.compare_cont Eq ?a ?b] =>
      change (Pos.compare_cont Eq a b) with (Pos.compare a b);
      destruct (Pos.compare_spec a b)
  end.

Ltac cmp_solve :=
  unfold B64.ltb, B64.eqb, SFltb, SFeqb, SFcompare;
  repeat match goal with
  | x : spec_float |- _ => destruct x
  | s : bool |- _ => destruct s
  end;
  simpl; try (intros; reflexivity || discriminate);
  cmp_cases; simpl; intros; subst; try reflexivity; try discriminate; try lia.

Lemma ltb_irrefl (x : spec_float) : B64.ltb x x = false.
Proof. cmp_solve. Qed.

Lemma ltb_trans (x y z : spec_float) :
  B64.ltb x y = true → B64.ltb y z = true → B64.ltb x z = true.
Proof. cmp_solve. Qed.

Lemma eqb_ltb_trans (x y z : spec_float) :
  B64.eqb x y = true → B64.ltb y z = true → B64.ltb x z = true.
Proof. cmp_solve. Qed.

Lemma ltb_connected (x y : spec_float) :
  B64.is_nan x = false → B64.is_nan y = false →
  B64.ltb x y = false → B64.eqb x y = false → B64.ltb y x = true.
Proof. unfold B64.is_nan. cmp_solve. Qed.

Lemma ltb_not_nan (x y : spec_float) :
  B64.ltb x y = true → B64.is_nan x = false ∧ B64.is_nan y = false.
Proof. unfold B64.is_nan. cmp_solve; split; reflexivity. Qed.

(** A number equal to a finite one is that very number, but for the sign
    of a zero. *)
Lemma eqb_finite (x y : spec_float) :
  B64.is_finite y = true → B64.eqb x y = true →
  x = y ∨ ∃ s s', x = S754_zero s ∧ y = S754_zero s'.
Proof.
  unfold B64.is_finite, B64.eqb, SFeqb, SFcompare.
  destruct x as [s| s| |s m e], y as [s'|s'| |s' m' e'];
    try discriminate; intros _; eauto;
    try (destruct s; discriminate); try (destruct s'; discriminate).
  destruct s, s'; try discriminate; cmp_cases; simpl; intros; subst;
    try discriminate; eauto.
Qed.

End B64Facts.

(* ===================================================================== *)
(** * Mean squared error (cell 55) *)
(* ===================================================================== *)

Section MSEFacts.

Context {Model : Type}.
Variable predict : Model → list (list Z) → result (list spec_float).

(** A prediction that compares equal to its label has the squared
    difference [+0.0]. *)
Lemma sqdiff_equal (a : spec_float) (b : Z) :
  float_eq_int a b = Ok true → sqdiff a b = Ok B64.zero.
Proof.
  unfold float_eq_int, sqdiff, float_of_int.
  destruct (B64.is_finite (B64.of_Z b)) eqn:Hf; simpl; [|discriminate].
  intros [= He].
  destruct (B64Facts.eqb_finite _ _ Hf He) as [->|(s & s' & -> & ->)].
  - destruct (B64.of_Z b) as [s|s| |s m e]; simpl in Hf; try discriminate.
    + destruct s; reflexivity.
    + unfold B64.sub, SFsub. rewrite Z.sub_diag. reflexivity.
  - destruct s, s'; reflexivity.
Qed.

Lemma mapR_sqdiff_equal (ps : list spec_float) (y : list Z) :
  Forall2 (λ a b, float_eq_int a b = Ok true) ps y →
  mapR (λ ab, sqdiff ab.1 ab.2) (zip ps y) = Ok (replicate (length y) B64.zero).
Proof.
  induction 1 as [|a b ps y Hab _ IH]; [reflexivity|].
  simpl. rewrite (sqdiff_equal a b Hab). simpl. rewrite IH. reflexivity.
Qed.

Lemma sum_of_zeros (n : nat) :
  foldl B64.add B64.zero (replicate n B64.zero) = B64.zero.
Proof. induction n as [|n IH]; [reflexivity|]. simpl. exact IH. Qed.

Lemma zero_over_length (n : nat) :
  n ≠ 0 → B64.div B64.zero (B64.of_Z (Z.of_nat n)) = B64.zero.
Proof.
  intros Hn.
  destruct (B64Facts.of_Z_pos (Z.of_nat n)) as [(m & e & ->)| ->];
    [lia|reflexivity|reflexivity].
Qed.

Lemma mean_of_zeros (n : nat) :
  n ≠ 0 →
  py_truediv (py_sum (replicate n B64.zero)) (length (replicate n B64.zero))
  = Ok B64.zero.
Proof.
  intros Hn. rewrite length_replicate. destruct n as [|n]; [done|].
  change (replicate (S n) B64.zero) with (B64.zero :: replicate n B64.zero).
  unfold py_sum, py_truediv. cbn [foldl].
  change (B64.add (B64.of_Z 0) B64.zero) with B64.zero.
  rewrite sum_of_zeros, zero_over_length by done. reflexivity.
Qed.

Lemma mse_of_equal (ps : list spec_float) (y : list Z) :
  y ≠ [] →
  Forall2 (λ a b, float_eq_int a b = Ok true) ps y →
  mse_of ps y = Ok B64.zero.
Proof.
  intros Hy Heq. unfold mse_of. rewrite (mapR_sqdiff_equal ps y Heq).
  apply mean_of_zeros. destruct y; done.
Qed.

Lemma mse_of_empty (ps : list spec_float) (y : list Z) :
  ps = [] ∨ y = [] → mse_of ps y = Raise ZeroDivisionError.
Proof.
  intros [-> | ->]; [reflexivity|]. unfold mse_of.
  destruct ps; reflexivity.
Qed.

(** ** C6 *)

(** C6. When [model.predict(X)] answers with predictions that are equal,
    element by element, to the labels of a list [y] that is not empty,
    [MSE(model, X, y)] returns exactly [+0.0]. *)
Theorem MSE_equal_is_zero (model : Model) (X : list (list Z)) (y : list Z)
    (predictions : list spec_float) :
  predict model X = Ok predictions →
  y ≠ [] →
  Forall2 (λ a b, float_eq_int a b = Ok true) predictions y →
  MSE predict model X y = Ok (S754_zero false).
Proof.
  intros Hp Hy Heq. unfold MSE. rewrite Hp. simpl.
  apply mse_of_equal; assumption.
Qed.

(** ** C8 *)

(** C8. [MSE] has no guard of its own, and [model.predict] comes before
    its division.  When [model.predict(X)] raises, as the library's does
    with [ValueError] for a feature list without a row, [MSE] raises that
    exception and the division is not reached.  When [model.predict(X)]
    answers and the predictions or the labels are empty, the division
    [sum(differences) / len(differences)] is reached with the length 0 and
    raises [ZeroDivisionError]. *)
Theorem MSE_empty_unguarded (model : Model) (X : list (list Z)) (y : list Z) :
  (∀ e : exn, predict model X = Raise e → MSE predict model X y = Raise e)
  ∧ (∀ predictions : list spec_float,
       predict model X = Ok predictions →
       predictions = [] ∨ y = [] →
       MSE predict model X y = Raise ZeroDivisionError).
Proof.
  split.
  - intros e Hp. unfold MSE. rewrite Hp. reflexivity.
  - intros predictions Hp He. unfold MSE. rewrite Hp. simpl.
    apply mse_of_empty. exact He.
Qed.

End MSEFacts.

(* ===================================================================== *)
(** * The vocabulary (cell 46) *)
(* ===================================================================== *)

Section OrderFacts.

Lemma leb_trans (a b c : string) :
  String.leb a b = true → String.leb b c = true → String.leb a c = true.
Proof.
  unfold String.leb. intros Hab Hbc.
  destruct (String.compare a b) eqn:Eab; try discriminate;
    destruct (String.compare b c) eqn:Ebc; try discriminate.
  - apply String.compare_eq_iff in Eab as ->. now rewrite Ebc.
  - apply String.compare_eq_iff in Eab as ->. now rewrite Ebc.
  - apply String.compare_eq_iff in Ebc as ->. now rewrite Eab.
  - apply String_as_OT.cmp_lt in Eab, Ebc.
    pose proof (String_as_OT.lt_trans _ _ _ Eab Ebc) as Hac.
    apply String_as_OT.cmp_lt in Hac. unfold String_as_OT.cmp in Hac.
    now rewrite Hac.
Qed.

#[global] Instance pair_le_total : Total pair_le.
Proof.
  intros [c w] [c' w']. unfold pair_le. simpl.
  destruct (Z.lt_trichotomy c c') as [?|[?|?]];
    destruct (String.leb_total w w'); auto.
Qed.

#[global] Instance pair_le_trans : Transitive pair_le.
Proof.
  intros [c1 w1] [c2 w2] [c3 w3]. unfold pair_le. simpl.
  intros [?|[? ?]] [?|[? ?]]; try lia.
  right. split; [lia|]. eapply leb_trans; eassumption.
Qed.

#[global] Instance pair_le_antisymm : AntiSymm (=) pair_le.
Proof.
  intros [c1 w1] [c2 w2]. unfold pair_le. simpl.
  intros [?|[? ?]] [?|[? ?]]; try lia.
  f_equal; [assumption|]. now apply String.leb_antisym.
Qed.

Lemma StronglySorted_reverse {A} (R : relation A) (l : list A) :
  StronglySorted R l → StronglySorted (flip R) (reverse l).
Proof.
  induction 1 as [|x l _ IH Hx]; [constructor|].
  rewrite reverse_cons. apply StronglySorted_app_2.
  - intros y x' Hy ->%list_elem_of_singleton. unfold flip.
    rewrite Forall_forall in Hx. apply Hx. now apply elem_of_reverse.
  - exact IH.
  - repeat constructor.
Qed.

Lemma StronglySorted_lookup {A} (R : relation A) (l : list A) (i j : nat) (x y : A) :
  StronglySorted R l → i < j → l !! i = Some x → l !! j = Some y → R x y.
Proof.
  intros Hl. revert i j. induction Hl as [|a l _ IH Ha]; intros i j Hij Hi Hj.
  - done.
  - destruct j as [|j]; [lia|]. destruct i as [|i]; simpl in *.
    + injection Hi as <-. rewrite Forall_forall in Ha.
      apply Ha. eapply list_elem_of_lookup_2. exact Hj.
    + apply (IH i j); [lia|done|done].
Qed.

End OrderFacts.

Section VocabularyFacts.

Implicit Types (wc : gmap string Z) (w : string) (c : Z).

Lemma occurrences_nil w : occurrences w [] = 0%Z.
Proof. reflexivity. Qed.

Lemma occurrences_cons w t (ts : list string) :
  occurrences w (t :: ts)
  = ((if decide (t = w) then 1 else 0) + occurrences w ts)%Z.
Proof.
  unfold occurrences. rewrite filter_cons.
  destruct (decide (t = w)); simpl length; lia.
Qed.

Lemma occurrences_app w (ts ts' : list string) :
  occurrences w (ts ++ ts') = (occurrences w ts + occurrences w ts')%Z.
Proof. unfold occurrences. rewrite filter_app, length_app. lia. Qed.

Lemma occurrences_nonneg w (ts : list string) : (0 ≤ occurrences w ts)%Z.
Proof. unfold occurrences. lia. Qed.

Lemma occurrences_pos w (ts : list string) : (0 < occurrences w ts)%Z ↔ w ∈ ts.
Proof.
  induction ts as [|t ts IH]; [rewrite occurrences_nil; split; [lia|inversion 1]|].
  rewrite occurrences_cons, elem_of_cons.
  pose proof (occurrences_nonneg w ts).
  destruct (decide (t = w)) as [->|Hne]; [split; [auto|lia]|].
  rewrite <- IH. split; [intros; right; lia|intros [?|?]; [congruence|lia]].
Qed.

Lemma count_word_lookup wc t w :
  count_word wc t !! w
  = if decide (t = w) then Some (default 0 (wc !! w) + 1)%Z else wc !! w.
Proof.
  unfold count_word. destruct (decide (t = w)) as [->|Hne].
  - apply lookup_insert_eq.
  - now apply lookup_insert_ne.
Qed.

(** Counting the tokens [ts] into [wc] adds, for each word, the number of
    times it occurs in [ts]; a word that does not occur gets no entry. *)
Lemma foldl_count_word_lookup (ts : list string) wc w :
  foldl count_word wc ts !! w
  = if decide (occurrences w ts = 0%Z) then wc !! w
    else Some (default 0 (wc !! w) + occurrences w ts)%Z.
Proof.
  revert wc. induction ts as [|t ts IH]; intros wc; [reflexivity|].
  simpl foldl. rewrite IH, count_word_lookup, occurrences_cons.
  pose proof (occurrences_nonneg w ts).
  destruct (decide (t = w)) as [->|Hne];
    repeat case_decide; simpl; try lia; try reflexivity.
  all: try (f_equal; lia).
Qed.

Lemma wordCount_flat (dataset : list datum) wc :
  foldl (λ wc d, foldl count_word wc (tokens d)) wc dataset
  = foldl count_word wc (dataset ≫= tokens).
Proof.
  revert wc. induction dataset as [|d ds IH]; intros wc; [reflexivity|].
  rewrite bind_cons, foldl_app. simpl. apply IH.
Qed.

(** The dictionary [wordCount] holds exactly the tokens of the corpus,
    each with the number of times it occurs. *)
Lemma wordCount_lookup (dataset : list datum) w :
  wordCount dataset !! w
  = if decide (frequency w dataset = 0%Z) then None
    else Some (frequency w dataset).
Proof.
  unfold wordCount, frequency. rewrite wordCount_flat, foldl_count_word_lookup.
  rewrite lookup_empty. case_decide; [reflexivity|]. simpl. reflexivity.
Qed.

Lemma wordCount_Some (dataset : list datum) w c :
  wordCount dataset !! w = Some c ↔ c = frequency w dataset ∧ (0 < c)%Z.
Proof.
  rewrite wordCount_lookup. pose proof (occurrences_nonneg w (dataset ≫= tokens)).
  unfold frequency in *. case_decide; split; try done.
  - intros [-> ?]. lia.
  - intros [= <-]. lia.
  - intros [-> ?]. done.
Qed.

Lemma counts_of_perm wc :
  counts_of wc ≡ₚ (λ kv, (kv.2, kv.1)) <$> map_to_list wc.
Proof. unfold counts_of. rewrite reverse_Permutation. apply merge_sort_Permutation. Qed.

Lemma counts_of_sorted wc : StronglySorted (flip pair_le) (counts_of wc).
Proof. apply StronglySorted_reverse, StronglySorted_merge_sort; apply _. Qed.

(** The order in which the dictionary is walked does not show in
    [counts]: sorting any listing of its items gives the same list. *)
Lemma counts_of_unique wc (items : list (string * Z)) :
  items ≡ₚ map_to_list wc →
  reverse (merge_sort pair_le ((λ kv, (kv.2, kv.1)) <$> items)) = counts_of wc.
Proof.
  intros Hp. unfold counts_of. f_equal.
  apply (StronglySorted_unique pair_le).
  - apply StronglySorted_merge_sort; apply _.
  - apply StronglySorted_merge_sort; apply _.
  - rewrite !merge_sort_Permutation. now rewrite Hp.
Qed.

Lemma elem_of_counts_of wc c w : (c, w) ∈ counts_of wc ↔ wc !! w = Some c.
Proof.
  rewrite counts_of_perm, list_elem_of_fmap. split.
  - intros [[w' c'] [[= -> ->] H]]. now apply elem_of_map_to_list.
  - intros H. exists (w, c). split; [reflexivity|]. now apply elem_of_map_to_list.
Qed.

Lemma length_counts_of wc : length (counts_of wc) = size wc.
Proof. rewrite counts_of_perm, length_fmap. apply length_map_to_list. Qed.

Lemma NoDup_snd_counts_of wc : NoDup (snd <$> counts_of wc).
Proof.
  rewrite counts_of_perm, <- list_fmap_compose.
  apply (NoDup_fst_map_to_list wc).
Qed.

Lemma counts_lookup_frequency (dataset : list datum) (i : nat) c w :
  counts dataset !! i = Some (c, w) → c = frequency w dataset ∧ (0 < c)%Z.
Proof.
  intros Hi. apply wordCount_Some, elem_of_counts_of.
  eapply list_elem_of_lookup_2. exact Hi.
Qed.

Lemma counts_has_token (dataset : list datum) w :
  (0 < frequency w dataset)%Z →
  ∃ j, counts dataset !! j = Some (frequency w dataset, w).
Proof.
  intros Hw. apply list_elem_of_lookup_1, elem_of_counts_of, wordCount_Some. done.
Qed.

Lemma counts_descending (dataset : list datum) (i j : nat) ci wi cj wj :
  i ≤ j →
  counts dataset !! i = Some (ci, wi) → counts dataset !! j = Some (cj, wj) →
  (cj ≤ ci)%Z.
Proof.
  intros Hij Hi Hj. destruct (decide (i = j)) as [->|Hne].
  - rewrite Hi in Hj. injection Hj as -> _. lia.
  - assert (flip pair_le (ci, wi) (cj, wj)) as [?|[? _]].
    { eapply (StronglySorted_lookup _ _ i j);
        [apply counts_of_sorted|lia|exact Hi|exact Hj]. }
    all: simpl in *; lia.
Qed.

Lemma words_lookup (dataset : list datum) (i : nat) w :
  words dataset !! i = Some w
  ↔ i < 1000 ∧ ∃ c, counts dataset !! i = Some (c, w).
Proof.
  unfold words. rewrite list_lookup_fmap, fmap_Some. split.
  - intros [[c w'] [[? ?]%lookup_take_Some ->]]. eauto.
  - intros [? [c ?]]. exists (c, w). split; [|reflexivity].
    now apply lookup_take_Some.
Qed.

Lemma words_length (dataset : list datum) :
  length (words dataset) = 1000 `min` size (wordCount dataset).
Proof.
  unfold words, counts. now rewrite length_fmap, length_take, length_counts_of.
Qed.

Lemma words_NoDup (dataset : list datum) : NoDup (words dataset).
Proof.
  unfold words. rewrite fmap_take.
  eapply sublist_NoDup; [apply NoDup_snd_counts_of|apply sublist_take].
Qed.

(** ** C5 *)

(** C5. The vocabulary [words] has at most 1000 entries, whatever the
    number of distinct tokens of the corpus; its entries are pairwise
    different tokens of the corpus; no token left out occurs more often
    than a token kept, and a token is only left out when all 1000 places
    are taken; the entries come in descending frequency, the most frequent
    one at index 0. *)
Theorem words_top_K (dataset : list datum) :
  length (words dataset) ≤ 1000
  ∧ NoDup (words dataset)
  ∧ (∀ w, w ∈ words dataset → (0 < frequency w dataset)%Z)
  ∧ (∀ w w', w ∈ words dataset → w' ∉ words dataset →
       (frequency w' dataset ≤ frequency w dataset)%Z)
  ∧ (∀ w', (0 < frequency w' dataset)%Z → w' ∉ words dataset →
       length (words dataset) = 1000)
  ∧ (∀ i j wi wj, i ≤ j →
       words dataset !! i = Some wi → words dataset !! j = Some wj →
       (frequency wj dataset ≤ frequency wi dataset)%Z).
Proof.
  assert (∀ w', (0 < frequency w' dataset)%Z → w' ∉ words dataset →
            ∃ j, 1000 ≤ j ∧ counts dataset !! j = Some (frequency w' dataset, w'))
    as Hout.
  { intros w' Hpos Hnot. destruct (counts_has_token dataset w' Hpos) as [j Hj].
    exists j. split; [|exact Hj].
    destruct (decide (1000 ≤ j)) as [|Hlt]; [assumption|].
    exfalso. apply Hnot. apply (list_elem_of_lookup_2 _ j).
    apply words_lookup. split; [lia|eauto]. }
  split_and!.
  - rewrite words_length. lia.
  - apply words_NoDup.
  - intros w [i Hi]%list_elem_of_lookup_1.
    apply words_lookup in Hi as [_ [c Hc]].
    apply counts_lookup_frequency in Hc as [<- ?]. assumption.
  - intros w w' [i Hi]%list_elem_of_lookup_1 Hnot.
    apply words_lookup in Hi as [Hlt [c Hc]].
    pose proof (counts_lookup_frequency _ _ _ _ Hc) as [-> Hpos].
    destruct (decide (0 < frequency w' dataset)%Z) as [Hpos'|]; [|lia].
    destruct (Hout w' Hpos' Hnot) as (j & Hj & Hcj).
    apply (counts_descending dataset i j _ w _ w'); [lia|done|done].
  - intros w' Hpos Hnot. destruct (Hout w' Hpos Hnot) as (j & Hj & Hcj).
    apply lookup_lt_Some in Hcj. unfold counts in Hcj.
    rewrite length_counts_of in Hcj. rewrite words_length. lia.
  - intros i j wi wj Hij [_ [ci Hi]]%words_lookup [_ [cj Hj]]%words_lookup.
    pose proof (counts_lookup_frequency _ _ _ _ Hi) as [-> _].
    pose proof (counts_lookup_frequency _ _ _ _ Hj) as [-> _].
    eapply counts_descending; eassumption.
Qed.

End VocabularyFacts.

(* ===================================================================== *)
(** * The encoders (cells 16 and 47) *)
(* ===================================================================== *)

Section FeatureFacts.

Implicit Types (ws ts : list string) (w : string) (feat : list Z).

Lemma foldM_ext {A B} (f g : B → A → result B) (acc : B) (l : list A) :
  (∀ b x, f b x = g b x) → foldM f acc l = foldM g acc l.
Proof.
  intros Hfg. revert acc. induction l as [|x l IH]; intros acc; [reflexivity|].
  simpl. rewrite Hfg. destruct (g acc x); simpl; [apply IH|reflexivity].
Qed.

Lemma wordId_snoc ws w : wordId (ws ++ [w]) = <[w := length ws]> (wordId ws).
Proof.
  unfold wordId, py_dict. rewrite length_app, seq_app. simpl.
  rewrite zip_with_app by (now rewrite length_seq).
  now rewrite foldl_app.
Qed.

(** In a list without repetition [wordId] sends each word to its index. *)
Lemma wordId_lookup ws :
  NoDup ws → ∀ w (i : nat), wordId ws !! w = Some i ↔ ws !! i = Some w.
Proof.
  induction ws as [|x ws IH] using rev_ind; intros Hnd w i.
  - unfold wordId, py_dict. simpl. rewrite lookup_empty. done.
  - apply NoDup_app in Hnd as (Hnd & Hx & _).
    rewrite wordId_snoc, lookup_snoc_Some.
    destruct (decide (x = w)) as [->|Hne].
    + rewrite lookup_insert_eq. split.
      * intros [= <-]. now right.
      * intros [[_ Hi]|[-> _]]; [|reflexivity].
        exfalso. apply (Hx w); [|apply list_elem_of_singleton; reflexivity].
        eapply list_elem_of_lookup_2. exact Hi.
    + rewrite lookup_insert_ne by done. rewrite (IH Hnd). split.
      * intros Hi. left. split; [|exact Hi]. eapply lookup_lt_Some. exact Hi.
      * intros [[_ Hi]|[_ ?]]; [exact Hi|congruence].
Qed.

(** The loop of [feature], from any [feat] of the right length: it ends
    without exception and has added to each place the number of times
    the word of that place occurs among the tokens. *)
Lemma feature_loop ws :
  NoDup ws →
  ∀ ts feat,
    length feat = length ws →
    ∃ feat',
      foldM (λ feat w,
          if bool_decide (w ∈ ws) then bump (vocabulary_of ws) feat w else Ok feat)
        feat ts = Ok feat'
      ∧ length feat' = length ws
      ∧ ∀ (i : nat) w, ws !! i = Some w →
          feat' !! i = (λ x, x + occurrences w ts)%Z <$> feat !! i.
Proof.
  intros Hnd. induction ts as [|t ts IH]; intros feat Hlen.
  - exists feat. split_and!; [reflexivity|assumption|].
    intros i w _. destruct (feat !! i); simpl; [f_equal; rewrite occurrences_nil; lia|done].
  - simpl. case_bool_decide as Ht.
    + apply list_elem_of_lookup_1 in Ht as [k Hk].
      pose proof (lookup_lt_Some _ _ _ Hk) as Hlt.
      destruct (lookup_lt_is_Some_2 feat k) as [x Hx]; [lia|].
      unfold bump. simpl.
      rewrite (proj2 (wordId_lookup ws Hnd t k) Hk). simpl.
      rewrite Hx. simpl.
      destruct (IH (<[k := (x + 1)%Z]> feat)) as (feat' & Hrun & Hlen' & Hcount);
        [now rewrite length_insert|].
      exists feat'. split_and!; [exact Hrun|exact Hlen'|].
      intros i w Hi. rewrite (Hcount i w Hi), occurrences_cons.
      destruct (decide (i = k)) as [->|Hik].
      * rewrite list_lookup_insert_eq by lia. rewrite Hx.
        assert (t = w) as -> by congruence.
        rewrite decide_True by done. simpl. f_equal. lia.
      * rewrite list_lookup_insert_ne by done.
        assert (t ≠ w) as Htw.
        { intros ->. apply Hik. eapply NoDup_lookup; eassumption. }
        rewrite decide_False by done. destruct (feat !! i); simpl; [f_equal; lia|done].
    + simpl. destruct (IH feat Hlen) as (feat' & Hrun & Hlen' & Hcount).
      exists feat'. split_and!; [exact Hrun|exact Hlen'|].
      intros i w Hi. rewrite (Hcount i w Hi), occurrences_cons.
      assert (t ≠ w) as Htw.
      { intros ->. apply Ht. eapply list_elem_of_lookup_2. exact Hi. }
      rewrite decide_False by done. destruct (feat !! i); simpl; [f_equal; lia|done].
Qed.

(** What cell 47 computes over a vocabulary without repetition. *)
Lemma feature_NoDup ws (d : datum) :
  NoDup ws →
  ∃ feat,
    Part3.feature (vocabulary_of ws) d = Ok feat
    ∧ length feat = length ws + 1
    ∧ last feat = Some 1%Z
    ∧ ∀ (i : nat) w, ws !! i = Some w → feat !! i = Some (occurrences w (tokens d)).
Proof.
  intros Hnd. unfold Part3.feature. simpl v_words.
  destruct (feature_loop ws Hnd (tokens d) (replicate (length ws) 0%Z))
    as (feat' & Hrun & Hlen & Hcount); [apply length_replicate|].
  exists (feat' ++ [1%Z]). rewrite Hrun. split_and!.
  - reflexivity.
  - rewrite length_app. simpl. lia.
  - apply last_snoc.
  - intros i w Hi. pose proof (lookup_lt_Some _ _ _ Hi) as Hlt.
    rewrite lookup_app_l by lia. rewrite (Hcount i w Hi).
    rewrite lookup_replicate_2 by lia. reflexivity.
Qed.

(** ** C4 *)

(** C4. Over the vocabulary of any corpus and for every record, cell 47's
    [feature] returns a vector of length [len(words) + 1] whose last
    element is 1 and whose element [i], for [i < len(words)], is the
    number of times [words[i]] occurs among the tokens of the record's
    lowercased, punctuation-stripped, whitespace-split text. *)
Theorem feature_vector_shape (dataset : list datum) (d : datum) :
  ∃ feat,
    Part3.feature (cell46 dataset) d = Ok feat
    ∧ length feat = length (words dataset) + 1
    ∧ last feat = Some 1%Z
    ∧ ∀ (i : nat) w, words dataset !! i = Some w →
        feat !! i = Some (occurrences w (tokens d)).
Proof. apply feature_NoDup, words_NoDup. Qed.

(** ** C10 *)

(** C10. Over the same vocabulary, whatever list [words] it is built
    from, the encoder of cell 16, which asks the set [wordSet], and the
    encoder of cell 47, which asks the list [words], return the same
    result for every record. *)
Theorem feature_Part1_Part3 ws (d : datum) :
  Part1.feature (vocabulary_of ws) d = Part3.feature (vocabulary_of ws) d.
Proof.
  unfold Part1.feature, Part3.feature. f_equal.
  apply foldM_ext. intros feat w. simpl.
  rewrite (bool_decide_ext (w ∈ wordSet ws) (w ∈ ws)); [reflexivity|].
  unfold wordSet. apply elem_of_list_to_set.
Qed.

End FeatureFacts.

(* ===================================================================== *)
(** * The three slices (cells 49 and 51) *)
(* ===================================================================== *)

Section PartitionFacts.

Lemma mapR_total {A B} (f : A → result B) (l : list A) :
  (∀ x, ∃ b, f x = Ok b) → ∃ bs, mapR f l = Ok bs ∧ length bs = length l.
Proof.
  intros Hf. induction l as [|x l (bs & Hbs & Hlen)].
  - exists []. done.
  - destruct (Hf x) as [b Hb]. exists (b :: bs). simpl.
    rewrite Hb, Hbs. simpl. auto.
Qed.

Lemma three_slices {A} (l : list A) (a b : nat) :
  a ≤ b →
  take a l ++ slice a b l ++ drop b l = l.
Proof.
  intros Hab. unfold slice.
  rewrite <- (take_drop b l) at 4.
  rewrite <- (take_drop a (take b l)) at 2.
  rewrite take_take, Nat.min_l by lia. now rewrite (assoc_L (++)).
Qed.

Lemma length_slice {A} (l : list A) (a b : nat) :
  b ≤ length l → length (slice a b l) = b - a.
Proof. intros Hb. unfold slice. rewrite length_drop, length_take. lia. Qed.

(** The slices of cell 51, for features and labels of the same number. *)
Lemma cell51_slices (X : list (list Z)) (y : list Z) :
  length y = length X →
  let N := length X in
  let P := cell51 X y in
  X_train P ++ X_valid P ++ X_test P = X
  ∧ y_train P ++ y_valid P ++ y_test P = y
  ∧ length (X_train P) = N / 2
  ∧ length (X_valid P) = 3 * N / 4 - N / 2
  ∧ length (X_test P) = N - 3 * N / 4
  ∧ length (y_train P) = N / 2
  ∧ length (y_valid P) = 3 * N / 4 - N / 2
  ∧ length (y_test P) = N - 3 * N / 4
  ∧ length (X_train P) + length (X_valid P) + length (X_test P) = N.
Proof.
  intros Hy N P. subst P. unfold cell51. fold N.
  cbn [X_train X_valid X_test y_train y_valid y_test].
  assert (N / 2 ≤ 3 * N / 4) as H1.
  { apply Nat.div_le_lower_bound; [lia|].
    pose proof (Nat.div_mod_eq N 2). pose proof (Nat.mod_upper_bound N 2).
    assert (4 * (N / 2) ≤ 2 * N) by lia. lia. }
  assert (3 * N / 4 ≤ N) as H2.
  { apply Nat.Div0.div_le_upper_bound; lia. }
  remember (N / 2) as a eqn:Ea. remember (3 * N / 4) as b eqn:Eb.
  clear Ea Eb. subst N.
  rewrite !three_slices by assumption.
  rewrite !length_slice by lia.
  rewrite !length_take, !length_drop. split_and!; try reflexivity; lia.
Qed.

(** ** C2 *)

(** C2. For every dataset of [N] records, in whatever order the shuffle
    leaves them, cells 46 to 51 end without exception and cut the feature
    list [X] and the label list [y] of the shuffled records into three
    contiguous slices of the sizes [N//2], [3*N//4 - N//2] and
    [N - 3*N//4], which add up to [N]. *)
Theorem partition_sizes (shuffle : list datum → list datum) (dataset : list datum) :
  shuffle dataset ≡ₚ dataset →
  let N := length dataset in
  ∃ P X,
    cells_46_to_51 shuffle dataset = Ok P
    ∧ mapR (Part3.feature (cell46 dataset)) (shuffle dataset) = Ok X
    ∧ X_train P ++ X_valid P ++ X_test P = X
    ∧ y_train P ++ y_valid P ++ y_test P = stars <$> shuffle dataset
    ∧ length (X_train P) = N / 2
    ∧ length (X_valid P) = 3 * N / 4 - N / 2
    ∧ length (X_test P) = N - 3 * N / 4
    ∧ length (y_train P) = N / 2
    ∧ length (y_valid P) = 3 * N / 4 - N / 2
    ∧ length (y_test P) = N - 3 * N / 4
    ∧ length (X_train P) + length (X_valid P) + length (X_test P) = N.
Proof.
  intros Hperm N.
  destruct (mapR_total (Part3.feature (cell46 dataset)) (shuffle dataset))
    as (X & HX & HlenX).
  { intros d.
  destruct (feature_NoDup (words dataset) d (words_NoDup dataset)) as (feat & Hf & _).
  eauto. }
  assert (length X = N) as HN.
  { rewrite HlenX. subst N. now rewrite Hperm. }
  exists (cell51 X (stars <$> shuffle dataset)), X.
  split; [unfold cells_46_to_51, cell49; rewrite HX; reflexivity|].
  split; [exact HX|].
  pose proof (cell51_slices X (stars <$> shuffle dataset)) as Hs.
  rewrite HN in Hs. apply Hs. rewrite length_fmap. lia.
Qed.

End PartitionFacts.

(* ===================================================================== *)
(** * Selection and test evaluation (cells 56, 57 and 59) *)
(* ===================================================================== *)

Section SelectionFacts.

Context {Model : Type}.
Variable fit : pynum → list (list Z) → list Z → result Model.
Variable predict : Model → list (list Z) → result (list spec_float).

Implicit Types (g : globals Model) (lamb : pynum) (lambs : list pynum).

(** One turn of the loop, case by case. *)
Lemma cell57_body_cases lamb g :
  cell57_body fit predict lamb g =
  let d := data g in
  match fit lamb (X_train d) (y_train d) with
  | Raise e => ([Load_X Train; Load_y Train], g, Raise e)
  | Ok model =>
      match MSE predict model (X_train d) (y_train d) with
      | Raise e => ([Load_X Train; Load_y Train; Load_X Train; Load_y Train], g, Raise e)
      | Ok mseTrain =>
          match MSE predict model (X_valid d) (y_valid d) with
          | Raise e =>
              ([Load_X Train; Load_y Train; Load_X Train; Load_y Train;
                Load_X Valid; Load_y Valid], g, Raise e)
          | Ok mseValid =>
              let ev := {| ev_model := model; ev_train := mseTrain; ev_valid := mseValid |} in
              let g' := {| data := d; bestModel := Some model; bestMSE := Some mseValid |} in
              match bestModel g with
              | None => (candidate_trace lamb ev, g', Ok ())
              | Some _ =>
                  match bestMSE g with
                  | None => (candidate_trace lamb ev, g, Raise TypeError)
                  | Some b =>
                      if B64.ltb mseValid b
                      then (candidate_trace lamb ev, g', Ok ())
                      else (candidate_trace lamb ev, g, Ok ())
                  end
              end
          end
      end
  end.
Proof.
  destruct g as [d bm bv].
  unfold cell57_body, improves, mbind, cell_bind, load_X, load_y, lift, emit,
    load_bestModel, load_bestMSE, store_bestModel, store_bestMSE, less_than_best,
    mret, cell_ret, candidate_trace.
  cbn [data bestModel bestMSE part_X part_y ev_train ev_valid].
  destruct (fit lamb (X_train d) (y_train d)) as [model|e]; [|reflexivity].
  destruct (MSE predict model (X_train d) (y_train d)) as [mseTrain|e]; [|reflexivity].
  destruct (MSE predict model (X_valid d) (y_valid d)) as [mseValid|e]; [|reflexivity].
  destruct bm as [m|]; [|reflexivity].
  destruct bv as [b|]; [|reflexivity].
  cbn. destruct (B64.ltb mseValid b); reflexivity.
Qed.

Lemma selection_loop_cons lamb lambs g :
  selection_loop fit predict (lamb :: lambs) g =
  match cell57_body fit predict lamb g with
  | (t, g', Ok _) =>
      match selection_loop fit predict lambs g' with
      | (t', g'', r) => (t ++ t', g'', r)
      end
  | (t, g', Raise e) => (t, g', Raise e)
  end.
Proof. reflexivity. Qed.

Lemma selection_loop_app lambs1 lambs2 g :
  selection_loop fit predict (lambs1 ++ lambs2) g =
  match selection_loop fit predict lambs1 g with
  | (t, g', Ok _) =>
      match selection_loop fit predict lambs2 g' with
      | (t', g'', r) => (t ++ t', g'', r)
      end
  | (t, g', Raise e) => (t, g', Raise e)
  end.
Proof.
  revert g. induction lambs1 as [|lamb lambs1 IH]; intros g.
  - simpl. change (selection_loop fit predict [] g) with (@nil event, g, Ok ()).
    destruct (selection_loop fit predict lambs2 g) as [[t' g''] r]. reflexivity.
  - rewrite <- app_comm_cons, !selection_loop_cons.
    destruct (cell57_body fit predict lamb g) as [[t1 g1] [[]|e]]; [|reflexivity].
    rewrite IH.
    destruct (selection_loop fit predict lambs1 g1) as [[t2 g2] [[]|e]]; [|reflexivity].
    destruct (selection_loop fit predict lambs2 g2) as [[t3 g3] r].
    now rewrite (assoc_L (++)).
Qed.

Lemma mapR_lookup {A B} (f : A → result B) (l : list A) (bs : list B) :
  mapR f l = Ok bs →
  ∀ (k : nat) b, bs !! k = Some b → ∃ x, l !! k = Some x ∧ f x = Ok b.
Proof.
  revert bs. induction l as [|x l IH]; intros bs Hm k b Hk.
  - injection Hm as <-. done.
  - simpl in Hm. destruct (f x) as [b0|] eqn:Hx; [|discriminate].
    simpl in Hm. destruct (mapR f l) as [bs'|]; [|discriminate].
    injection Hm as <-. destruct k as [|k]; simpl in *.
    + injection Hk as <-. eauto.
    + now apply (IH bs').
Qed.

(** A turn over a candidate that evaluates without exception is one step
    of the reduction [keep]. *)
Lemma cell57_body_ok lamb g (ev : evaluation Model) (best : option (evaluation Model)) :
  evaluate fit predict (data g) lamb = Ok ev →
  g = with_best g best →
  cell57_body fit predict lamb g
  = (candidate_trace lamb ev, with_best g (keep best ev), Ok ()).
Proof.
  intros Hev Hg. rewrite cell57_body_cases. unfold evaluate in Hev.
  destruct g as [d bm bv]. unfold with_best in *. simpl in *.
  injection Hg as -> ->.
  destruct (fit lamb (X_train d) (y_train d)) as [model|]; [|discriminate].
  simpl in Hev.
  destruct (MSE predict model (X_train d) (y_train d)) as [mt|]; [|discriminate].
  simpl in Hev.
  destruct (MSE predict model (X_valid d) (y_valid d)) as [mv|]; [|discriminate].
  injection Hev as <-. destruct best as [b|]; simpl; [|reflexivity].
  destruct (B64.ltb mv (ev_valid b)); reflexivity.
Qed.

(** The loop refines the reduction: over candidates that all evaluate
    without exception it ends with the selection that folding [keep] over
    their evaluations gives. *)
Lemma selection_loop_ok lambs :
  ∀ g (best : option (evaluation Model)) (evs : list (evaluation Model)),
    mapR (evaluate fit predict (data g)) lambs = Ok evs →
    g = with_best g best →
    selection_loop fit predict lambs g
    = (mjoin (zip_with candidate_trace lambs evs),
       with_best g (foldl keep best evs), Ok ()).
Proof.
  induction lambs as [|lamb lambs IH]; intros g best evs Hm Hg.
  - injection Hm as <-. simpl. rewrite <- Hg. reflexivity.
  - simpl in Hm.
    destruct (evaluate fit predict (data g) lamb) as [ev|] eqn:Hev; [|discriminate].
    simpl in Hm.
    destruct (mapR (evaluate fit predict (data g)) lambs) as [evs'|] eqn:Hm'; [|discriminate].
    injection Hm as <-.
    rewrite selection_loop_cons, (cell57_body_ok lamb g ev best Hev Hg).
    rewrite (IH (with_best g (keep best ev)) (keep best ev) evs' Hm' eq_refl).
    reflexivity.
Qed.

(** What the reduction keeps: an evaluation than which no evaluation is
    strictly smaller, and the first one with its validation error. *)
Lemma foldl_keep_first_min (evs : list (evaluation Model)) :
  evs ≠ [] →
  ∃ (k : nat) ev,
    foldl keep None evs = Some ev
    ∧ evs !! k = Some ev
    ∧ (k = 0 ∨ B64.is_nan (ev_valid ev) = false)
    ∧ (∀ (j : nat) ev', evs !! j = Some ev' →
         B64.ltb (ev_valid ev') (ev_valid ev) = false)
    ∧ (∀ (j : nat) ev', j < k → evs !! j = Some ev' →
         B64.eqb (ev_valid ev') (ev_valid ev) = false).
Proof.
  induction evs as [|x l IH] using rev_ind; [done|]. intros _.
  rewrite foldl_snoc. destruct (decide (l = [])) as [->|Hl].
  { exists 0, x. simpl. split_and!; auto.
    - intros [|j] ev' [= <-]. apply B64Facts.ltb_irrefl.
    - intros j ev' Hj. lia. }
  destruct (IH Hl) as (k & ev & -> & Hk & Hnan & Hmin & Hfirst).
  pose proof (lookup_lt_Some _ _ _ Hk) as Hlt.
  simpl. destruct (B64.ltb (ev_valid x) (ev_valid ev)) eqn:Hx.
  - exists (length l), x. split_and!.
    + reflexivity.
    + apply list_lookup_middle. reflexivity.
    + right. apply (B64Facts.ltb_not_nan _ _ Hx).
    + intros j ev' [[_ Hj]|[_ <-]]%lookup_snoc_Some; [|apply B64Facts.ltb_irrefl].
      destruct (B64.ltb (ev_valid ev') (ev_valid x)) eqn:Hj'; [|reflexivity].
      rewrite <- (Hmin j ev' Hj). symmetry.
      eapply B64Facts.ltb_trans; eassumption.
    + intros j ev' Hjk [[_ Hj]|[? _]]%lookup_snoc_Some; [|lia].
      destruct (B64.eqb (ev_valid ev') (ev_valid x)) eqn:Hj'; [|reflexivity].
      rewrite <- (Hmin j ev' Hj). symmetry.
      eapply B64Facts.eqb_ltb_trans; eassumption.
  - exists k, ev. split_and!.
    + reflexivity.
    + now apply lookup_app_l_Some.
    + exact Hnan.
    + intros j ev' [[_ Hj]|[_ <-]]%lookup_snoc_Some; [eauto|exact Hx].
    + intros j ev' Hjk [[_ Hj]|[? _]]%lookup_snoc_Some; [eauto|lia].
Qed.

(** ** C1 *)

(** C1. Cell 57 walks the candidates [0.01, 0.1, 1, 10, 100] in this order;
    each turn fits a model on the training partition and takes its mean
    squared error on the training and on the validation partition.  When
    no turn raises, the loop ends with [bestModel] and [bestMSE] holding
    the model and the validation error of one candidate, such that no
    candidate has a strictly smaller validation error and no earlier
    candidate has an equal one: every earlier candidate whose error is a
    number has a strictly larger one. *)
Theorem selection_first_minimum (d : partitions) (evs : list (evaluation Model)) :
  mapR (evaluate fit predict d) candidates = Ok evs →
  ∃ g (k : nat) lamb ev,
    cell57 fit predict (initial d)
    = (mjoin (zip_with candidate_trace candidates evs), g, Ok ())
    ∧ candidates !! k = Some lamb
    ∧ evaluate fit predict d lamb = Ok ev
    ∧ evs !! k = Some ev
    ∧ data g = d
    ∧ bestModel g = Some (ev_model ev)
    ∧ bestMSE g = Some (ev_valid ev)
    ∧ (∀ (j : nat) ev', evs !! j = Some ev' →
         B64.ltb (ev_valid ev') (ev_valid ev) = false)
    ∧ (∀ (j : nat) ev', j < k → evs !! j = Some ev' →
         B64.eqb (ev_valid ev') (ev_valid ev) = false
         ∧ (B64.is_nan (ev_valid ev') = false →
            B64.ltb (ev_valid ev) (ev_valid ev') = true)).
Proof.
  intros Hm.
  assert (evs ≠ []) as Hne.
  { intros ->. simpl in Hm.
    repeat (match type of Hm with
            | context [evaluate fit predict d ?l] =>
                destruct (evaluate fit predict d l); simpl in Hm; [|discriminate]
            end).
    discriminate. }
  destruct (foldl_keep_first_min evs Hne) as (k & ev & Hfold & Hk & Hnan & Hmin & Hfirst).
  destruct (mapR_lookup _ _ _ Hm k ev Hk) as (lamb & Hlamb & Hev).
  exists (with_best (initial d) (foldl keep None evs)), k, lamb, ev.
  split_and!; try done.
  - unfold cell57. apply (selection_loop_ok candidates (initial d) None evs Hm eq_refl).
  - now rewrite Hfold.
  - now rewrite Hfold.
  - intros j ev' Hjk Hj. split; [eauto|]. intros Hnan'.
    destruct Hnan as [->|Hnan]; [lia|].
    apply B64Facts.ltb_connected; eauto.
Qed.

(** ** C7 *)

(** C7. Over an empty list of candidates the loop runs no turn: it leaves
    no event and changes no global, so that after cells 56 and 57
    [bestModel] and [bestMSE] are still [None]. *)
Theorem empty_candidates_select_nothing g :
  selection_loop fit predict [] g = ([], g, Ok ())
  ∧ select fit predict [] g = ([], initial (data g), Ok ())
  ∧ bestModel (select fit predict [] g).1.2 = None
  ∧ bestMSE (select fit predict [] g).1.2 = None.
Proof. split_and!; reflexivity. Qed.

Lemma cell57_body_test_free lamb g (t : list event) g' (r : result unit) :
  cell57_body fit predict lamb g = (t, g', r) → test_free t.
Proof.
  rewrite cell57_body_cases. cbv zeta. unfold candidate_trace.
  repeat match goal with
         | |- context [match ?x with _ => _ end] => destruct x
         end;
    intros [= <- <- <-]; repeat constructor.
Qed.

Lemma selection_loop_test_free lambs :
  ∀ g (t : list event) g' (r : result unit),
    selection_loop fit predict lambs g = (t, g', r) → test_free t.
Proof.
  induction lambs as [|lamb lambs IH]; intros g t g' r.
  - intros [= <- <- <-]. constructor.
  - rewrite selection_loop_cons.
    destruct (cell57_body fit predict lamb g) as [[t1 g1] r1] eqn:H1.
    apply cell57_body_test_free in H1.
    destruct r1 as [[]|e]; [|intros [= <- <- <-]; done].
    destruct (selection_loop fit predict lambs g1) as [[t2 g2] r2] eqn:H2.
    apply IH in H2. intros [= <- <- <-]. now apply Forall_app.
Qed.

Lemma cell57_body_selects lamb g (t : list event) g' :
  cell57_body fit predict lamb g = (t, g', Ok ()) → is_Some (bestModel g').
Proof.
  rewrite cell57_body_cases. cbv zeta.
  repeat match goal with
         | |- context [match ?x with _ => _ end] => destruct x eqn:?
         end;
    intros [= <- <-]; simpl; eauto.
Qed.

Lemma selection_loop_selects lambs :
  ∀ g (t : list event) g',
    selection_loop fit predict lambs g = (t, g', Ok ()) →
    lambs ≠ [] ∨ is_Some (bestModel g) →
    is_Some (bestModel g').
Proof.
  induction lambs as [|lamb lambs IH]; intros g t g'.
  - intros [= <- <-] [?|?]; done.
  - rewrite selection_loop_cons. intros Hrun _.
    destruct (cell57_body fit predict lamb g) as [[t1 g1] [[]|e]] eqn:H1; [|discriminate].
    apply cell57_body_selects in H1.
    destruct (selection_loop fit predict lambs g1) as [[t2 g2] r2] eqn:H2.
    injection Hrun as <- <- ->. eapply IH; eauto.
Qed.

(** ** C3 *)

(** C3. Whatever the globals before, cells 56 and 57 leave no event that
    reads [X_test] or [y_test] or reports a test error.  If the loop raises,
    nothing more is run.  If it ends, a model is selected, and cell 59 then
    reads [X_test] and [y_test] once each and computes [MSE] on them once:
    the run is the run of cells 56 and 57 followed by these two reads and,
    when [MSE] answers, by the one report of the test error. *)
Theorem test_error_once_after_selection g0 :
  ∃ (t57 : list event) g57 (r57 : result unit),
    cells_56_57 fit predict g0 = (t57, g57, r57)
    ∧ test_free t57
    ∧ match r57 with
      | Raise e => cells_56_to_59 fit predict g0 = (t57, g57, Raise e)
      | Ok _ =>
          ∃ model,
            bestModel g57 = Some model
            ∧ cells_56_to_59 fit predict g0 =
              match MSE predict model (X_test (data g57)) (y_test (data g57)) with
              | Ok mseTest =>
                  (t57 ++ [Load_X Test; Load_y Test; Print_test mseTest], g57, Ok mseTest)
              | Raise e => (t57 ++ [Load_X Test; Load_y Test], g57, Raise e)
              end
      end.
Proof.
  unfold cells_56_57, cells_56_to_59, select, select_and_test.
  destruct (selection_loop fit predict candidates (initial (data g0)))
    as [[t g] r] eqn:Hrun.
  exists t, g, r.
  pose proof (selection_loop_test_free _ _ _ _ _ Hrun) as Hfree.
  unfold mbind, cell_bind, cell56, mbind, cell_bind, store_bestModel, store_bestMSE.
  cbn [data bestModel bestMSE app].
  fold (initial (Model := Model) (data g0)). rewrite Hrun.
  split_and!.
  - destruct r as [[]|e]; reflexivity.
  - exact Hfree.
  - destruct r as [[]|e]; [|reflexivity].
    destruct (selection_loop_selects _ _ _ _ Hrun) as [model Hmodel]; [now left|].
    exists model. split; [exact Hmodel|].
    unfold cell59, mbind, cell_bind, load_bestModel, load_X, load_y, lift, emit,
      mret, cell_ret, of_option.
    rewrite Hmodel. cbn [part_X part_y app].
    destruct (MSE predict model (X_test (data g)) (y_test (data g))); reflexivity.
Qed.

End SelectionFacts.

(* ===================================================================== *)
(** * Cell 57 with every name it binds *)
(* ===================================================================== *)

Section NamesFacts.

Context {Model : Type}.
Variable fit : pynum → list (list Z) → list Z → result Model.
Variable predict : Model → list (list Z) → result (list spec_float).

Implicit Types (g : namespace Model) (lamb : pynum) (lambs : list pynum).

(** One turn of the loop, case by case, with the names it leaves. *)
Lemma cell57_turn_cases lamb g :
  cell57_turn fit predict lamb g =
  let d := ns_data g in
  match fit lamb (X_train d) (y_train d) with
  | Raise e =>
      ([Load_X Train; Load_y Train],
       with_names g (Some lamb) (Some (Unfitted lamb)) (ns_mseTrain g) (ns_mseValid g),
       Raise e)
  | Ok model =>
      match MSE predict model (X_train d) (y_train d) with
      | Raise e =>
          ([Load_X Train; Load_y Train; Load_X Train; Load_y Train],
           with_names g (Some lamb) (Some (Fitted model)) (ns_mseTrain g) (ns_mseValid g),
           Raise e)
      | Ok mseTrain =>
          match MSE predict model (X_valid d) (y_valid d) with
          | Raise e =>
              ([Load_X Train; Load_y Train; Load_X Train; Load_y Train;
                Load_X Valid; Load_y Valid],
               with_names g (Some lamb) (Some (Fitted model)) (Some mseTrain)
                 (ns_mseValid g),
               Raise e)
          | Ok mseValid =>
              let ev := {| ev_model := model; ev_train := mseTrain; ev_valid := mseValid |} in
              let g1 := with_names g (Some lamb) (Some (Fitted model)) (Some mseTrain)
                          (Some mseValid) in
              let g2 := {| ns_data := d; ns_bestModel := Some model;
                           ns_bestMSE := Some mseValid;
                           ns_lamb := Some lamb; ns_model := Some (Fitted model);
                           ns_mseTrain := Some mseTrain; ns_mseValid := Some mseValid |} in
              match ns_bestModel g with
              | None => (candidate_trace lamb ev, g2, Ok ())
              | Some _ =>
                  match ns_bestMSE g with
                  | None => (candidate_trace lamb ev, g1, Raise TypeError)
                  | Some b =>
                      if B64.ltb mseValid b
                      then (candidate_trace lamb ev, g2, Ok ())
                      else (candidate_trace lamb ev, g1, Ok ())
                  end
              end
          end
      end
  end.
Proof.
  destruct g as [d bm bv l m mt mv].
  unfold cell57_turn, mbind, stmt_bind, read_X, read_y, ns_lift, ns_emit,
    read_bestModel, read_bestMSE, bind_bestModel, bind_bestMSE, bind_lamb, bind_model,
    bind_mseTrain, bind_mseValid, less_than_best, mret, stmt_ret, candidate_trace,
    with_names.
  cbn [ns_data ns_bestModel ns_bestMSE ns_lamb ns_model ns_mseTrain ns_mseValid
       part_X part_y ev_train ev_valid].
  destruct (fit lamb (X_train d) (y_train d)) as [model|e]; [|reflexivity].
  destruct (MSE predict model (X_train d) (y_train d)) as [mseTrain|e]; [|reflexivity].
  destruct (MSE predict model (X_valid d) (y_valid d)) as [mseValid|e]; [|reflexivity].
  destruct bm as [m0|]; [|reflexivity].
  destruct bv as [b|]; [|reflexivity].
  cbn. destruct (B64.ltb mseValid b); reflexivity.
Qed.

Lemma cell57_turns_cons lamb lambs g :
  cell57_turns fit predict (lamb :: lambs) g =
  match cell57_turn fit predict lamb g with
  | (t, g', Ok _) =>
      match cell57_turns fit predict lambs g' with
      | (t', g'', r) => (t ++ t', g'', r)
      end
  | (t, g', Raise e) => (t, g', Raise e)
  end.
Proof. reflexivity. Qed.

Lemma cell57_turns_app lambs1 lambs2 g :
  cell57_turns fit predict (lambs1 ++ lambs2) g =
  match cell57_turns fit predict lambs1 g with
  | (t, g', Ok _) =>
      match cell57_turns fit predict lambs2 g' with
      | (t', g'', r) => (t ++ t', g'', r)
      end
  | (t, g', Raise e) => (t, g', Raise e)
  end.
Proof.
  revert g. induction lambs1 as [|lamb lambs1 IH]; intros g.
  - simpl. change (cell57_turns fit predict [] g) with (@nil event, g, @Ok unit ()).
    destruct (cell57_turns fit predict lambs2 g) as [[t' g''] r]. reflexivity.
  - rewrite <- app_comm_cons, !cell57_turns_cons.
    destruct (cell57_turn fit predict lamb g) as [[t1 g1] [[]|e]]; [|reflexivity].
    rewrite IH.
    destruct (cell57_turns fit predict lambs1 g1) as [[t2 g2] [[]|e]]; [|reflexivity].
    destruct (cell57_turns fit predict lambs2 g2) as [[t3 g3] r].
    now rewrite (assoc_L (++)).
Qed.

(** Seen through [bestModel], [bestMSE] and the partitions alone, a turn
    with all its names is the turn [cell57_body]. *)
Lemma cell57_turn_globals lamb g (t : list event) g' (r : result unit) :
  cell57_turn fit predict lamb g = (t, g', r) →
  cell57_body fit predict lamb (globals_of g) = (t, globals_of g', r).
Proof.
  rewrite cell57_turn_cases, cell57_body_cases.
  destruct g as [d bm bv l m mt mv]. unfold globals_of, with_names.
  cbn [ns_data ns_bestModel ns_bestMSE ns_lamb ns_model ns_mseTrain ns_mseValid
       data bestModel bestMSE].
  destruct (fit lamb (X_train d) (y_train d)) as [model|e]; [|now intros [= <- <- <-]].
  destruct (MSE predict model (X_train d) (y_train d)) as [mseTrain|e];
    [|now intros [= <- <- <-]].
  destruct (MSE predict model (X_valid d) (y_valid d)) as [mseValid|e];
    [|now intros [= <- <- <-]].
  cbn zeta. destruct bm as [m0|]; [|now intros [= <- <- <-]].
  destruct bv as [b|]; [|now intros [= <- <- <-]].
  destruct (B64.ltb mseValid b); now intros [= <- <- <-].
Qed.

Lemma cell57_turns_globals lambs :
  ∀ g (t : list event) g' (r : result unit),
    cell57_turns fit predict lambs g = (t, g', r) →
    selection_loop fit predict lambs (globals_of g) = (t, globals_of g', r).
Proof.
  induction lambs as [|lamb lambs IH]; intros g t g' r.
  - now intros [= <- <- <-].
  - rewrite cell57_turns_cons, selection_loop_cons.
    destruct (cell57_turn fit predict lamb g) as [[t1 g1] r1] eqn:H1.
    rewrite (cell57_turn_globals _ _ _ _ _ H1).
    destruct r1 as [[]|e]; [|now intros [= <- <- <-]].
    destruct (cell57_turns fit predict lambs g1) as [[t2 g2] r2] eqn:H2.
    rewrite (IH _ _ _ _ H2). now intros [= <- <- <-].
Qed.

Lemma selects_among_refl lambs g : selects_among fit predict lambs g g.
Proof. split; [reflexivity|left; split; reflexivity]. Qed.

Lemma selects_among_cons lamb lambs g g1 g2 :
  selects_among fit predict [lamb] g g1 →
  selects_among fit predict lambs g1 g2 →
  selects_among fit predict (lamb :: lambs) g g2.
Proof.
  intros [Hd1 H1] [Hd2 H2]. split; [congruence|].
  destruct H2 as [[Hm2 Hv2]|(l2 & ev2 & Hin2 & Hev2 & Hm2 & Hv2 & Hlt2)].
  - destruct H1 as [[Hm1 Hv1]|(l1 & ev1 & Hin1 & Hev1 & Hm1 & Hv1 & Hlt1)].
    + left. split; congruence.
    + right. exists l1, ev1. apply list_elem_of_singleton in Hin1 as ->.
      split_and!; [left|exact Hev1|congruence|congruence|exact Hlt1].
  - right. exists l2, ev2. rewrite Hd1 in Hev2.
    split_and!; [now right|exact Hev2|exact Hm2|exact Hv2|].
    intros b Hb.
    destruct H1 as [[Hm1 Hv1]|(l1 & ev1 & Hin1 & Hev1 & Hm1 & Hv1 & Hlt1)].
    + apply Hlt2. congruence.
    + apply (B64Facts.ltb_trans _ (ev_valid ev1)); [now apply Hlt2|now apply Hlt1].
Qed.

(** What one turn does to the names. *)
Lemma cell57_turn_names lamb g (t : list event) g' (r : result unit) :
  ns_paired g →
  cell57_turn fit predict lamb g = (t, g', r) →
  ns_paired g'
  ∧ selects_among fit predict [lamb] g g'
  ∧ (r = Ok () → bound_by_turn fit predict lamb g').
Proof.
  intros Hp. rewrite cell57_turn_cases.
  destruct g as [d bm bv l m mt mv]. unfold ns_paired, selects_among, bound_by_turn,
    evaluate, with_names in *.
  cbn [ns_data ns_bestModel ns_bestMSE ns_lamb ns_model ns_mseTrain ns_mseValid] in *.
  destruct (fit lamb (X_train d) (y_train d)) as [model|e] eqn:Hfit.
  2:{ intros [= <- <- <-]. simpl. split_and!; [exact Hp|reflexivity|now left|discriminate]. }
  destruct (MSE predict model (X_train d) (y_train d)) as [mseTrain|e] eqn:Ht.
  2:{ intros [= <- <- <-]. simpl. split_and!; [exact Hp|reflexivity|now left|discriminate]. }
  destruct (MSE predict model (X_valid d) (y_valid d)) as [mseValid|e] eqn:Hv.
  2:{ intros [= <- <- <-]. simpl. split_and!; [exact Hp|reflexivity|now left|discriminate]. }
  cbn zeta.
  assert (∀ bm' bv',
    (bm' = bm ∧ bv' = bv) ∨ (bm' = Some model ∧ bv' = Some mseValid
                             ∧ ∀ b, bv = Some b → B64.ltb mseValid b = true) →
    (bm' = None ↔ bv' = None) →
    let g' := {| ns_data := d; ns_bestModel := bm'; ns_bestMSE := bv';
                 ns_lamb := Some lamb; ns_model := Some (Fitted model);
                 ns_mseTrain := Some mseTrain; ns_mseValid := Some mseValid |} in
    (ns_bestModel g' = None ↔ ns_bestMSE g' = None)
    ∧ (ns_data g' = d
       ∧ ((ns_bestModel g' = bm ∧ ns_bestMSE g' = bv)
          ∨ ∃ lamb0 ev, lamb0 ∈ [lamb]
              ∧ (model ← fit lamb0 (X_train d) (y_train d);
                 mseTrain ← MSE predict model (X_train d) (y_train d);
                 mseValid ← MSE predict model (X_valid d) (y_valid d);
                 Ok {| ev_model := model; ev_train := mseTrain; ev_valid := mseValid |})
                = Ok ev
              ∧ ns_bestModel g' = Some (ev_model ev)
              ∧ ns_bestMSE g' = Some (ev_valid ev)
              ∧ ∀ b, bv = Some b → B64.ltb (ev_valid ev) b = true))
    ∧ (Ok () = Ok () →
       ∃ ev, (model ← fit lamb (X_train (ns_data g')) (y_train (ns_data g'));
              mseTrain ← MSE predict model (X_train (ns_data g')) (y_train (ns_data g'));
              mseValid ← MSE predict model (X_valid (ns_data g')) (y_valid (ns_data g'));
              Ok {| ev_model := model; ev_train := mseTrain; ev_valid := mseValid |})
             = Ok ev
         ∧ ns_lamb g' = Some lamb
         ∧ ns_model g' = Some (Fitted (ev_model ev))
         ∧ ns_mseTrain g' = Some (ev_train ev)
         ∧ ns_mseValid g' = Some (ev_valid ev))) as Hall.
  { intros bm' bv' Hsel Hp'. cbn.
    assert ((model0 ← fit lamb (X_train d) (y_train d);
             mseTrain0 ← MSE predict model0 (X_train d) (y_train d);
             mseValid0 ← MSE predict model0 (X_valid d) (y_valid d);
             Ok {| ev_model := model0; ev_train := mseTrain0; ev_valid := mseValid0 |})
            = Ok {| ev_model := model; ev_train := mseTrain; ev_valid := mseValid |}) as Hev.
    { rewrite Hfit. simpl. rewrite Ht. simpl. rewrite Hv. reflexivity. }
    split_and!; [exact Hp'|reflexivity| |].
    - destruct Hsel as [[-> ->]|(-> & -> & Hlt)]; [now left|].
      right. eexists lamb, _. split_and!; [left|exact Hev|reflexivity|reflexivity|exact Hlt].
    - intros _. eexists. split_and!; [exact Hev|reflexivity..]. }
  destruct bm as [m0|].
  - destruct bv as [b|]; [|exfalso; destruct Hp as [_ Hp]; now specialize (Hp eq_refl)].
    destruct (B64.ltb mseValid b) eqn:Hlt; intros [= <- <- <-].
    + apply Hall; [right; split_and!; [reflexivity..|]|done].
      now intros b' [= <-].
    + apply Hall; [now left|done].
  - intros [= <- <- <-]. apply Hall; [|done].
    right. split_and!; [reflexivity..|]. intros b Hb.
    destruct Hp as [Hp _]. rewrite (Hp eq_refl) in Hb. discriminate.
Qed.

(** What the loop does to the names. *)
Lemma cell57_turns_names lambs :
  ∀ g (t : list event) g' (r : result unit),
    ns_paired g →
    cell57_turns fit predict lambs g = (t, g', r) →
    ns_paired g'
    ∧ selects_among fit predict lambs g g'
    ∧ (lambs = [] → g' = g)
    ∧ (∀ lamb, last lambs = Some lamb → r = Ok () → bound_by_turn fit predict lamb g').
Proof.
  induction lambs as [|lamb lambs IH]; intros g t g' r Hp.
  - intros [= <- <- <-]. split_and!; [exact Hp|apply selects_among_refl|done|done].
  - rewrite cell57_turns_cons.
    destruct (cell57_turn fit predict lamb g) as [[t1 g1] r1] eqn:H1.
    destruct (cell57_turn_names _ _ _ _ _ Hp H1) as (Hp1 & Hs1 & Hb1).
    destruct r1 as [[]|e].
    + destruct (cell57_turns fit predict lambs g1) as [[t2 g2] r2] eqn:H2.
      destruct (IH _ _ _ _ Hp1 H2) as (Hp2 & Hs2 & Hnil & Hb2).
      intros [= <- <- <-]. split_and!; [exact Hp2| |done|].
      * now apply (selects_among_cons _ _ _ g1).
      * intros lamb' Hlast Hr. destruct lambs as [|lamb2 lambs].
        -- injection Hlast as <-. rewrite (Hnil eq_refl). now apply Hb1.
        -- apply Hb2; [exact Hlast|exact Hr].
    + intros [= <- <- <-]. split_and!; [exact Hp1| |done|discriminate].
      destruct Hs1 as [Hd Hs1]. split; [exact Hd|].
      destruct Hs1 as [?|(l1 & ev1 & Hin & ?)]; [now left|].
      right. exists l1, ev1. apply list_elem_of_singleton in Hin as ->.
      split_and!; [left|tauto..].
Qed.

Lemma select_names_eq lambs (g0 : namespace Model) :
  select_names fit predict lambs g0
  = cell57_turns fit predict lambs
      {| ns_data := ns_data g0; ns_bestModel := None; ns_bestMSE := None;
         ns_lamb := ns_lamb g0; ns_model := ns_model g0;
         ns_mseTrain := ns_mseTrain g0; ns_mseValid := ns_mseValid g0 |}.
Proof.
  unfold select_names, cell56_names, mbind, stmt_bind, bind_bestModel, bind_bestMSE.
  cbn [ns_data ns_bestModel ns_bestMSE ns_lamb ns_model ns_mseTrain ns_mseValid].
  destruct (cell57_turns fit predict lambs _) as [[t g] r]. reflexivity.
Qed.

(** ** C9 *)


End NamesFacts.

(* ===================================================================== *)
(** * The cells on examples *)
(* ===================================================================== *)

Example lit_0_01_nearest : lit_0_01 = B64.div (B64.of_Z 1) (B64.of_Z 100).
Proof. vm_compute. reflexivity. Qed.

Example lit_0_1_nearest : lit_0_1 = B64.div (B64.of_Z 1) (B64.of_Z 10).
Proof. vm_compute. reflexivity. Qed.

Example tokens_reviews :
  tokens <$> Toy.reviews
  = [["good"; "food"; "good"; "place"]; ["bad"; "food"; "bad"; "service"];
     ["great"; "place"]; ["the"; "food"; "was"; "good"]; ["soso"]].
Proof. vm_compute. reflexivity. Qed.

Example counts_reviews :
  counts Toy.reviews
  = [(3, "good"); (3, "food"); (2, "place"); (2, "bad"); (1, "was"); (1, "the");
     (1, "soso"); (1, "service"); (1, "great")]%Z.
Proof. vm_compute. reflexivity. Qed.

Example feature_reviews :
  Part3.feature (cell46 Toy.reviews) <$> Toy.reviews
  = [Ok [2; 1; 1; 0; 0; 0; 0; 0; 0; 1]; Ok [0; 1; 0; 2; 0; 0; 0; 1; 0; 1];
     Ok [0; 0; 1; 0; 0; 0; 0; 0; 1; 1]; Ok [1; 1; 0; 0; 1; 1; 0; 0; 0; 1];
     Ok [0; 0; 0; 0; 0; 0; 1; 0; 0; 1]]%Z.
Proof. vm_compute. reflexivity. Qed.

(** In a list with a repeated word, the dictionary keeps the last index. *)
Example wordId_repeated : wordId ["a"; "b"; "a"] !! "a" = Some 2.
Proof. vm_compute. reflexivity. Qed.

Example parts_sizes :
  (length (X_train Toy.parts), length (X_valid Toy.parts), length (X_test Toy.parts))
  = (4, 2, 2).
Proof. reflexivity. Qed.

Example slices_of_seven :
  let P := cell51 (replicate 7 []) (replicate 7 0%Z) in
  (length (X_train P), length (X_valid P), length (X_test P)) = (3, 2, 2).
Proof. reflexivity. Qed.

(** The stand-in predicts 10 for the fourth candidate, which is the label
    of both validation rows: its validation error is 0 and it is kept. *)
Example select_toy :
  let g := (cells_56_to_59 Toy.fit Toy.predict (initial Toy.parts)).1.2 in
  bestModel g = Some (B64.of_Z 10) ∧ bestMSE g = Some (S754_zero false).
Proof. vm_compute. split; reflexivity. Qed.

Example MSE_empty_toy :
  MSE Toy.predict (B64.of_Z 3) [] [] = Raise ZeroDivisionError.
Proof. reflexivity. Qed.

(** An infinite prediction against a finite label: the error is infinite,
    not a NaN. *)
Example MSE_infinite_toy :
  MSE Toy.predict (S754_infinity false) [[1]]%Z [3]%Z = Ok (S754_infinity false).
Proof. vm_compute. reflexivity. Qed.

(** A [predict] that refuses its input is heard before the division. *)
Example MSE_refused_toy :
  MSE Toy.refuse (B64.of_Z 3) [] [] = Raise ValueError.
Proof. reflexivity. Qed.

(** Without a candidate nothing is selected and cell 59 fails. *)
Example no_candidate_toy :
  select_and_test Toy.fit Toy.predict [] (initial Toy.parts)
  = ([Load_X Test; Load_y Test], initial Toy.parts, Raise AttributeError).
Proof. reflexivity. Qed.

(* ===================================================================== *)
(** * The theorems with hypotheses, at concrete inputs *)
(* ===================================================================== *)

Lemma selection_first_minimum_witness :
  ∃ evs,
    mapR (evaluate Toy.fit Toy.predict Toy.parts) candidates = Ok evs
    ∧ ∃ g (k : nat) lamb ev,
        cell57 Toy.fit Toy.predict (initial Toy.parts)
        = (mjoin (zip_with candidate_trace candidates evs), g, Ok ())
        ∧ candidates !! k = Some lamb
        ∧ evaluate Toy.fit Toy.predict Toy.parts lamb = Ok ev
        ∧ evs !! k = Some ev
        ∧ data g = Toy.parts
        ∧ bestModel g = Some (ev_model ev)
        ∧ bestMSE g = Some (ev_valid ev)
        ∧ (∀ (j : nat) ev', evs !! j = Some ev' →
             B64.ltb (ev_valid ev') (ev_valid ev) = false)
        ∧ (∀ (j : nat) ev', j < k → evs !! j = Some ev' →
             B64.eqb (ev_valid ev') (ev_valid ev) = false
             ∧ (B64.is_nan (ev_valid ev') = false →
                B64.ltb (ev_valid ev) (ev_valid ev') = true)).
Proof.
  eexists. split; [vm_compute; reflexivity|].
  apply (selection_first_minimum Toy.fit Toy.predict Toy.parts).
  vm_compute. reflexivity.
Defined.

Lemma partition_sizes_witness :
  reverse Toy.reviews ≡ₚ Toy.reviews
  ∧ ∃ P X,
      cells_46_to_51 reverse Toy.reviews = Ok P
      ∧ mapR (Part3.feature (cell46 Toy.reviews)) (reverse Toy.reviews) = Ok X
      ∧ X_train P ++ X_valid P ++ X_test P = X
      ∧ y_train P ++ y_valid P ++ y_test P = stars <$> reverse Toy.reviews
      ∧ length (X_train P) = 5 / 2
      ∧ length (X_valid P) = 3 * 5 / 4 - 5 / 2
      ∧ length (X_test P) = 5 - 3 * 5 / 4
      ∧ length (y_train P) = 5 / 2
      ∧ length (y_valid P) = 3 * 5 / 4 - 5 / 2
      ∧ length (y_test P) = 5 - 3 * 5 / 4
      ∧ length (X_train P) + length (X_valid P) + length (X_test P) = 5.
Proof.
  split; [apply reverse_Permutation|].
  apply (partition_sizes reverse Toy.reviews). apply reverse_Permutation.
Defined.

Lemma MSE_equal_is_zero_witness :
  Toy.predict (B64.of_Z 3) [[1; 1]; [0; 1]]%Z = Ok [B64.of_Z 3; B64.of_Z 3]
  ∧ [3; 3]%Z ≠ []
  ∧ Forall2 (λ a b, float_eq_int a b = Ok true) [B64.of_Z 3; B64.of_Z 3] [3; 3]%Z
  ∧ MSE Toy.predict (B64.of_Z 3) [[1; 1]; [0; 1]]%Z [3; 3]%Z = Ok (S754_zero false).
Proof.
  assert (Forall2 (λ a b, float_eq_int a b = Ok true)
            [B64.of_Z 3; B64.of_Z 3] [3; 3]%Z) as Heq
    by (repeat constructor).
  split_and!; [reflexivity|discriminate|exact Heq|].
  apply (MSE_equal_is_zero Toy.predict (B64.of_Z 3) _ _ [B64.of_Z 3; B64.of_Z 3]);
    [reflexivity|discriminate|exact Heq].
Defined.

(** C8, as the specification words it, fails for a model that, like the
    library's, refuses a feature list without a row: the empty feature list
    with the empty label list gives [ValueError], raised by [predict]
    before [MSE] computes anything, and no [ZeroDivisionError]. *)
Lemma MSE_empty_refused :
  Sample.predict_rows (B64.of_Z 3) [] = Raise ValueError
  ∧ MSE Sample.predict_rows (B64.of_Z 3) [] [] = Raise ValueError
  ∧ MSE Sample.predict_rows (B64.of_Z 3) [] [] ≠ Raise ZeroDivisionError.
Proof. split_and!; [reflexivity|reflexivity|discriminate]. Qed.

Lemma MSE_empty_unguarded_witness :
  (Sample.predict_rows (B64.of_Z 3) [] = Raise ValueError
   ∧ MSE Sample.predict_rows (B64.of_Z 3) [] [] = Raise ValueError)
  ∧ (Sample.predict_rows (B64.of_Z 3) [[1; 1]%Z] = Ok [B64.of_Z 3]
     ∧ MSE Sample.predict_rows (B64.of_Z 3) [[1; 1]%Z] [] = Raise ZeroDivisionError).
Proof.
  split; (split; [reflexivity|]).
  - apply (proj1 (MSE_empty_unguarded Sample.predict_rows (B64.of_Z 3) [] []) ValueError).
    reflexivity.
  - apply (proj2 (MSE_empty_unguarded Sample.predict_rows (B64.of_Z 3) [[1; 1]%Z] [])
             [B64.of_Z 3]); [reflexivity|now right].
Defined.



(* ===================================================================== *)
(** * More on the text operations (cells 6 to 12, 46 and 47) *)
(* ===================================================================== *)

Ltac by_cases_on_char c :=
  destruct c as [[] [] [] [] [] [] [] []]; vm_compute; try reflexivity; try discriminate; auto.

Lemma isspace_lower_char (c : Ascii.ascii) : isspace (lower_char c) = isspace c.
Proof. by_cases_on_char c. Qed.

Lemma isspace_plain (c : Ascii.ascii) :
  isspace c = true → lower_char c = c ∧ punctuation c = false.
Proof. by_cases_on_char c. Qed.

Lemma lower_char_not_upper (c : Ascii.ascii) :
  between 65 90 (code (lower_char c)) = false.
Proof. by_cases_on_char c. Qed.

Lemma chars_of_list (l : list Ascii.ascii) : chars (String.string_of_list_ascii l) = l.
Proof. apply String.list_ascii_of_string_of_list_ascii. Qed.


Lemma lower_app (s1 s2 : string) :
  lower (String.append s1 s2) = String.append (lower s1) (lower s2).
Proof. induction s1 as [|c s1 IH]; simpl; [reflexivity|]. now rewrite IH. Qed.

Lemma strip_punctuation_app (s1 s2 : string) :
  strip_punctuation (String.append s1 s2)
  = String.append (strip_punctuation s1) (strip_punctuation s2).
Proof.
  induction s1 as [|c s1 IH]; simpl; [reflexivity|].
  destruct (punctuation c); simpl; now rewrite IH.
Qed.

(** What [split_go] answers: tokens that are not empty and hold no white
    space, and that spell, one after the other, the pending characters and
    then the rest of the text without its white space. *)
Lemma split_go_spec (s : string) :
  ∀ cur : list Ascii.ascii,
    Forall (λ c, isspace c = false) cur →
    Forall (λ t, t ≠ EmptyString ∧ Forall (λ c, isspace c = false) (chars t))
      (split_go cur s)
    ∧ mjoin (chars <$> split_go cur s)
      = rev cur ++ filter (λ c, isspace c = false) (chars s).
Proof.
  assert (∀ cur : list Ascii.ascii,
            Forall (λ c, isspace c = false) cur →
            Forall (λ t, t ≠ EmptyString ∧ Forall (λ c, isspace c = false) (chars t))
              (flush cur)
            ∧ mjoin (chars <$> flush cur) = rev cur) as Hflush.
  { intros [|c cur] Hcur; [split; [constructor|reflexivity]|].
    unfold flush. split.
    - constructor; [|constructor]. rewrite chars_of_list. split.
      + intros Hs. apply (f_equal chars) in Hs. rewrite chars_of_list in Hs.
        simpl in Hs. destruct (rev cur); discriminate.
      + apply Forall_forall. intros x Hx. rewrite Forall_forall in Hcur.
        apply Hcur. apply list_elem_of_In, in_rev, list_elem_of_In. exact Hx.
    - simpl. rewrite chars_of_list. apply app_nil_r. }
  induction s as [|c s IH]; intros cur Hcur.
  - simpl. destruct (Hflush cur Hcur) as [H1 H2]. split; [exact H1|].
    rewrite H2. symmetry. apply app_nil_r.
  - simpl split_go. change (chars (String c s)) with (c :: chars s).
    destruct (isspace c) eqn:Hc.
    + destruct (Hflush cur Hcur) as [H1 H2].
      destruct (IH [] (Forall_nil_2 _)) as [H3 H4]. split.
      * apply Forall_app. done.
      * rewrite fmap_app, join_app, H2, H4. simpl.
        rewrite filter_cons_False by (rewrite Hc; discriminate). reflexivity.
    + destruct (IH (c :: cur)) as [H3 H4]; [constructor; assumption|].
      split; [exact H3|]. rewrite H4. simpl.
      rewrite filter_cons_True by exact Hc. now rewrite <- app_assoc.
Qed.


Lemma chars_normalize (s : string) :
  Forall (λ c, punctuation c = false ∧ between 65 90 (code c) = false)
    (chars (normalize s)).
Proof.
  unfold normalize. induction s as [|c s IH]; simpl; [constructor|].
  destruct (punctuation (lower_char c)) eqn:Hc; [exact IH|].
  change (chars (String ?a ?r)) with (a :: chars r). constructor; [|exact IH].
  split; [exact Hc|apply lower_char_not_upper].
Qed.

(** X2. Every token the counting loop and [feature] see is a word that is
    not empty and holds no white space, no character of
    [string.punctuation] and no upper-case letter [A]-[Z]. *)
Theorem tokens_are_normal (d : datum) :
  Forall (λ t, t ≠ EmptyString
               ∧ Forall (λ c, isspace c = false ∧ punctuation c = false
                              ∧ between 65 90 (code c) = false) (chars t))
    (tokens d).
Proof.
  unfold tokens. fold (normalize (text d)).
  destruct (split_go_spec (normalize (text d)) [] (Forall_nil_2 _)) as [Hgood Hjoin].
  fold (split (normalize (text d))) in Hgood, Hjoin.
  pose proof (chars_normalize (text d)) as Hnorm.
  rewrite Forall_forall in Hgood. rewrite Forall_forall in Hnorm.
  apply Forall_forall. intros t Ht.
  destruct (Hgood t Ht) as [Hne Hsp]. split; [exact Hne|].
  rewrite Forall_forall in Hsp. apply Forall_forall. intros c Hc.
  split; [now apply Hsp|]. apply Hnorm.
  assert (c ∈ mjoin (chars <$> split (normalize (text d)))) as Hin.
  { apply list_elem_of_join. exists (chars t). split; [exact Hc|].
    apply list_elem_of_fmap. eauto. }
  simpl in Hjoin. rewrite Hjoin in Hin. apply list_elem_of_filter in Hin. tauto.
Qed.


Lemma split_go_app_space (s1 s2 : string) (c : Ascii.ascii) :
  isspace c = true →
  ∀ cur, split_go cur (String.append s1 (String c s2))
         = split_go cur s1 ++ split_go [] s2.
Proof.
  intros Hc. induction s1 as [|a s1 IH]; intros cur; simpl.
  - now rewrite Hc.
  - destruct (isspace a); [|apply IH]. now rewrite IH, app_assoc.
Qed.

Lemma tokens_app_space (s1 s2 : string) (st st1 st2 : Z) :
  tokens {| text := s1 +:+ " " +:+ s2; stars := st |}
  = tokens {| text := s1; stars := st1 |} ++ tokens {| text := s2; stars := st2 |}.
Proof.
  unfold tokens, split. simpl text.
  change (" " +:+ s2) with (String (Ascii.ascii_of_nat 32) s2).
  rewrite lower_app, strip_punctuation_app. simpl.
  apply split_go_app_space. reflexivity.
Qed.

(** X4. Over the vocabulary of any corpus, the counts for two texts
    joined by a space are the sums of the counts for each: at every index
    below [len(words)] the vector of [s1 + ' ' + s2] holds the sum of the
    entries of the vectors of [s1] and of [s2]. *)
Theorem feature_additive (dataset : list datum) (s1 s2 : string) (st st1 st2 : Z) :
  ∃ f1 f2 f,
    Part3.feature (cell46 dataset) {| text := s1; stars := st1 |} = Ok f1
    ∧ Part3.feature (cell46 dataset) {| text := s2; stars := st2 |} = Ok f2
    ∧ Part3.feature (cell46 dataset)
        {| text := s1 +:+ " " +:+ s2; stars := st |} = Ok f
    ∧ ∀ (i : nat), i < length (words dataset) →
        ∃ x1 x2, f1 !! i = Some x1 ∧ f2 !! i = Some x2 ∧ f !! i = Some (x1 + x2)%Z.
Proof.
  pose proof (words_NoDup dataset) as Hnd.
  destruct (feature_NoDup _ {| text := s1; stars := st1 |} Hnd) as (f1 & H1 & _ & _ & C1).
  destruct (feature_NoDup _ {| text := s2; stars := st2 |} Hnd) as (f2 & H2 & _ & _ & C2).
  destruct (feature_NoDup _ {| text := s1 +:+ " " +:+ s2; stars := st |} Hnd)
    as (f & H & _ & _ & C).
  exists f1, f2, f. split_and!; [exact H1|exact H2|exact H|].
  intros i Hi. destruct (lookup_lt_is_Some_2 _ _ Hi) as [w Hw].
  eexists _, _. split_and!; [apply (C1 i w Hw)|apply (C2 i w Hw)|].
  rewrite (C i w Hw), (tokens_app_space s1 s2 st st1 st2), occurrences_app. reflexivity.
Qed.

(* ===================================================================== *)
(** * More on the word counts (cells 6 to 14 and 46) *)
(* ===================================================================== *)

Lemma count_words_dom (l : list string) :
  dom (foldl count_word ∅ l) = list_to_set l.
Proof.
  apply set_eq. intros w.
  rewrite elem_of_dom, elem_of_list_to_set, foldl_count_word_lookup, lookup_empty.
  rewrite <- occurrences_pos. pose proof (occurrences_nonneg w l).
  case_decide as Hz; split.
  - intros [? [=]].
  - lia.
  - lia.
  - eauto.
Qed.

Lemma count_words_size (l : list string) :
  size (foldl count_word ∅ l) = size (list_to_set l : gset string).
Proof. now rewrite <- size_dom, count_words_dom. Qed.

Lemma union_singleton_in (a : string) (S : gset string) : a ∈ S → {[a]} ∪ S = S.
Proof. intros Ha. now apply subseteq_union_1_L, singleton_subseteq_l. Qed.

Lemma size_union_singleton_le (a : string) (S : gset string) :
  size ({[a]} ∪ S) ≤ 1 + size S.
Proof.
  rewrite size_union_alt, size_singleton.
  assert (size (S ∖ {[a]}) ≤ size S) by (apply subseteq_size, subseteq_difference_l; done).
  lia.
Qed.

Lemma size_image_le (f : string → string) (l : list string) :
  size (list_to_set (f <$> l) : gset string) ≤ size (list_to_set l : gset string).
Proof.
  induction l as [|x l IH]; [done|].
  rewrite fmap_cons, !list_to_set_cons.
  destruct (decide (x ∈ (list_to_set l : gset string))) as [Hin|Hout].
  - assert (f x ∈ (list_to_set (f <$> l) : gset string)) as Hfin.
    { apply elem_of_list_to_set, list_elem_of_fmap. exists x.
      split; [done|]. now apply elem_of_list_to_set in Hin. }
    now rewrite !union_singleton_in.
  - rewrite (size_union {[x]}) by (now apply disjoint_singleton_l).
    rewrite size_singleton.
    pose proof (size_union_singleton_le (f x) (list_to_set (f <$> l))). lia.
Qed.

Lemma size_filter_le (P : string → Prop) `{!∀ x, Decision (P x)} (l : list string) :
  size (list_to_set (filter P l) : gset string) ≤ size (list_to_set l : gset string).
Proof.
  apply subseteq_size. intros x. rewrite !elem_of_list_to_set, list_elem_of_filter. tauto.
Qed.

Lemma wordCount6_flat (dataset : list datum) (wc : gmap string Z) :
  foldl (λ wc d, foldl count_word wc (split (text d))) wc dataset
  = foldl count_word wc (dataset ≫= λ d, split (text d)).
Proof.
  revert wc. induction dataset as [|d ds IH]; intros wc; [reflexivity|].
  rewrite bind_cons, foldl_app. simpl. apply IH.
Qed.

Lemma wordCount10_flat (stem : string → string) (dataset : list datum) (wc : gmap string Z) :
  foldl (λ wc d, foldl (λ wc w, count_word wc (stem w)) wc (tokens d)) wc dataset
  = foldl count_word wc (stem <$> (dataset ≫= tokens)).
Proof.
  revert wc. induction dataset as [|d ds IH]; intros wc; [reflexivity|].
  rewrite bind_cons, fmap_app, foldl_app. simpl. rewrite IH. f_equal.
  generalize (tokens d). intros ts. revert wc.
  induction ts as [|t ts IHts]; intros wc; [reflexivity|]. simpl. apply IHts.
Qed.


Lemma normalize_of_list (l : list Ascii.ascii) :
  normalize (String.string_of_list_ascii l) = String.string_of_list_ascii (normc l).
Proof.
  unfold normalize, normc. induction l as [|c l IH]; [reflexivity|].
  rewrite fmap_cons. cbn [String.string_of_list_ascii lower strip_punctuation].
  destruct (punctuation (lower_char c)) eqn:Hc.
  - rewrite filter_cons_False by (rewrite Hc; discriminate). exact IH.
  - rewrite filter_cons_True by exact Hc.
    cbn [String.string_of_list_ascii]. now rewrite IH.
Qed.

Lemma normc_app (l k : list Ascii.ascii) : normc (l ++ k) = normc l ++ normc k.
Proof. unfold normc. now rewrite fmap_app, filter_app. Qed.

Lemma normc_rev (l : list Ascii.ascii) : normc (rev l) = rev (normc l).
Proof.
  induction l as [|c l IH]; [reflexivity|].
  change (c :: l) with ([c] ++ l). rewrite normc_app, rev_app_distr. simpl rev at 1.
  rewrite normc_app, IH, rev_app_distr. f_equal.
  unfold normc. simpl. destruct (punctuation (lower_char c)) eqn:Hc.
  - now rewrite filter_cons_False by (rewrite Hc; discriminate).
  - now rewrite filter_cons_True by exact Hc.
Qed.

Lemma flush_normc (cur : list Ascii.ascii) :
  flush (normc cur) = filter (λ t, t ≠ EmptyString) (normalize <$> flush cur).
Proof.
  destruct cur as [|c cur]; [reflexivity|].
  unfold flush at 2. rewrite fmap_cons, fmap_nil, normalize_of_list, normc_rev.
  destruct (normc (c :: cur)) as [|a l] eqn:Hn.
  - simpl. rewrite filter_cons_False by (intros H; now apply H). reflexivity.
  - unfold flush. rewrite filter_cons_True; [reflexivity|].
    intros H. apply (f_equal chars) in H. rewrite chars_of_list in H.
    simpl in H. destruct (rev l); discriminate.
Qed.

(** Normalizing a text and splitting it gives the normalized words of the
    split text, without those that normalize to nothing. *)
Lemma split_go_normalize (s : string) :
  ∀ cur, split_go (normc cur) (normalize s)
         = filter (λ t, t ≠ EmptyString) (normalize <$> split_go cur s).
Proof.
  induction s as [|c s IH]; intros cur.
  - apply flush_normc.
  - simpl split_go. destruct (isspace c) eqn:Hc.
    + destruct (isspace_plain c Hc) as [Hl Hp].
      unfold normalize. cbn [lower strip_punctuation]. rewrite Hl, Hp.
      cbn [split_go]. rewrite Hc.
      fold (normalize s). rewrite fmap_app, filter_app, <- flush_normc.
      f_equal. apply (IH []).
    + rewrite <- IH. unfold normalize, normc. rewrite fmap_cons.
      cbn [lower strip_punctuation].
      destruct (punctuation (lower_char c)) eqn:Hp.
      * rewrite filter_cons_False by (rewrite Hp; discriminate). reflexivity.
      * rewrite filter_cons_True by exact Hp. cbn [split_go].
        now rewrite isspace_lower_char, Hc.
Qed.

Lemma tokens_of_split (d : datum) :
  tokens d = filter (λ t, t ≠ EmptyString) (normalize <$> split (text d)).
Proof. unfold tokens, split. apply (split_go_normalize (text d) []). Qed.

Lemma corpus_tokens_of_split (dataset : list datum) :
  dataset ≫= tokens
  = filter (λ t, t ≠ EmptyString) (normalize <$> (dataset ≫= λ d, split (text d))).
Proof.
  induction dataset as [|d ds IH]; [reflexivity|].
  rewrite !bind_cons, fmap_app, filter_app, IH, tokens_of_split. reflexivity.
Qed.

(** X8. Lower-casing and stripping punctuation can only merge words: the
    number of distinct words cell 8 prints ([len(wordCount)] after the
    loop of cells 8, 12 and 46) is at most the number cell 6 prints for
    the words as they stand. *)
Theorem normalizing_merges_words (dataset : list datum) :
  size (wordCount dataset) ≤ size (wordCount6 dataset).
Proof.
  unfold wordCount, wordCount6.
  rewrite wordCount_flat, wordCount6_flat, !count_words_size, corpus_tokens_of_split.
  etrans; [apply size_filter_le|apply size_image_le].
Qed.

(** X9. Whatever the stemmer answers, cell 10 counts at most as many
    distinct words as cell 8, and its entry for a stem is the number of
    tokens of the corpus with that stem (no entry when there is none). *)
Theorem stemming_merges_words (stem : string → string) (dataset : list datum) :
  size (wordCount10 stem dataset) ≤ size (wordCount dataset)
  ∧ ∀ s, wordCount10 stem dataset !! s
         = if decide (occurrences s (stem <$> (dataset ≫= tokens)) = 0%Z) then None
           else Some (occurrences s (stem <$> (dataset ≫= tokens))).
Proof.
  unfold wordCount, wordCount10. rewrite wordCount_flat, wordCount10_flat. split.
  - rewrite !count_words_size. apply size_image_le.
  - intros s. rewrite foldl_count_word_lookup, lookup_empty.
    case_decide; [reflexivity|]. simpl. reflexivity.
Qed.

(** X5. After the loops of cell 46, [wordCount[w]] (0 for a missing key,
    as a [defaultdict(int)] answers) is the number of times [w] occurs as a
    token in the corpus, and a word is a key exactly when some record has
    it as a token. *)
Theorem wordCount_counts_tokens (dataset : list datum) (w : string) :
  default 0%Z (wordCount dataset !! w) = frequency w dataset
  ∧ (is_Some (wordCount dataset !! w) ↔ w ∈ dataset ≫= tokens)
  ∧ (wordCount dataset !! w = None ↔ ∀ d, d ∈ dataset → w ∉ tokens d).
Proof.
  rewrite wordCount_lookup. unfold frequency.
  pose proof (occurrences_nonneg w (dataset ≫= tokens)) as Hnn.
  pose proof (occurrences_pos w (dataset ≫= tokens)) as Hpos.
  split_and!.
  - case_decide; simpl; lia.
  - case_decide; split.
    + intros [? [=]].
    + intros Hin. apply Hpos in Hin. lia.
    + intros _. apply Hpos. lia.
    + eauto.
  - case_decide as Hz; split.
    + intros _ d Hd Hw. assert (w ∈ dataset ≫= tokens) as Hin
        by (apply list_elem_of_bind; eauto).
      apply Hpos in Hin. lia.
    + done.
    + discriminate.
    + intros Hall. exfalso. assert (w ∈ dataset ≫= tokens) as Hin by (apply Hpos; lia).
      apply list_elem_of_bind in Hin as (d & Hw & Hd). exact (Hall d Hd Hw).
Qed.

Lemma frequency_Permutation (w : string) (dataset dataset' : list datum) :
  dataset' ≡ₚ dataset → frequency w dataset' = frequency w dataset.
Proof. intros Hp. unfold frequency, occurrences. now rewrite Hp. Qed.

Lemma wordCount_Permutation (dataset dataset' : list datum) :
  dataset' ≡ₚ dataset → wordCount dataset' = wordCount dataset.
Proof.
  intros Hp. apply map_eq. intros w.
  now rewrite !wordCount_lookup, (frequency_Permutation w _ _ Hp).
Qed.

(** X6. The word counts, [counts], [words] and the vocabulary do not
    depend on the order of the records: running cell 46 before or after
    [random.shuffle(dataset)] gives the same vocabulary. *)
Theorem vocabulary_ignores_record_order (dataset dataset' : list datum) :
  dataset' ≡ₚ dataset →
  wordCount dataset' = wordCount dataset
  ∧ counts dataset' = counts dataset
  ∧ words dataset' = words dataset
  ∧ cell46 dataset' = cell46 dataset.
Proof.
  intros Hp. pose proof (wordCount_Permutation _ _ Hp) as Hwc.
  unfold cell46, words, counts. now rewrite Hwc.
Qed.

(** X7. Among words of the same frequency, [counts.sort()] followed by
    [counts.reverse()] puts the alphabetically later word first: an
    earlier index of [words] holds the greater string. *)
Theorem words_ties_reverse_alphabetical (dataset : list datum) (i j : nat) (wi wj : string) :
  i < j →
  words dataset !! i = Some wi →
  words dataset !! j = Some wj →
  frequency wi dataset = frequency wj dataset →
  String.ltb wj wi = true.
Proof.
  intros Hij [_ [ci Hi]]%words_lookup [_ [cj Hj]]%words_lookup Hf.
  pose proof (counts_lookup_frequency _ _ _ _ Hi) as [-> _].
  pose proof (counts_lookup_frequency _ _ _ _ Hj) as [-> _].
  assert (flip pair_le (frequency wi dataset, wi) (frequency wj dataset, wj)) as Hle.
  { eapply (StronglySorted_lookup _ _ i j);
      [apply counts_of_sorted|lia|exact Hi|exact Hj]. }
  assert (wi ≠ wj) as Hne.
  { intros ->. assert (i = j); [|lia].
    eapply (NoDup_lookup (snd <$> counts dataset)); [apply NoDup_snd_counts_of| |].
    - rewrite list_lookup_fmap, Hi. reflexivity.
    - rewrite list_lookup_fmap, Hj. reflexivity. }
  destruct Hle as [Hlt|[_ Hleb]]; simpl in *; [lia|].
  unfold String.leb in Hleb. unfold String.ltb.
  destruct (String.compare wj wi) eqn:Hc; try done.
  apply String.compare_eq_iff in Hc. congruence.
Qed.

Lemma feature_empty_vocabulary (d : datum) :
  Part3.feature (vocabulary_of []) d = Ok [1%Z].
Proof.
  unfold Part3.feature. simpl v_words. simpl replicate.
  assert (∀ ts feat,
            foldM (λ feat w, if bool_decide (w ∈ @nil string)
                             then bump (vocabulary_of []) feat w else Ok feat)
              feat ts = Ok feat) as Hloop.
  { induction ts as [|t ts IH]; intros feat; [reflexivity|].
    cbn [foldM]. rewrite bool_decide_eq_false_2 by (apply not_elem_of_nil).
    simpl. apply IH. }
  now rewrite Hloop.
Qed.

(** X10. When no record of the corpus has a token (an empty corpus, or
    texts of punctuation and white space only), [wordCount] and [words]
    are empty and [feature] answers [[1]] for every record. *)
Theorem corpus_without_tokens (dataset : list datum) :
  (∀ d, d ∈ dataset → tokens d = []) →
  wordCount dataset = ∅
  ∧ words dataset = []
  ∧ ∀ d, Part3.feature (cell46 dataset) d = Ok [1%Z].
Proof.
  intros Hall.
  assert (wordCount dataset = ∅) as Hwc.
  { apply map_eq. intros w. rewrite lookup_empty, wordCount_lookup.
    case_decide as Hz; [reflexivity|]. exfalso. apply Hz.
    pose proof (occurrences_nonneg w (dataset ≫= tokens)).
    destruct (decide (0 < frequency w dataset)%Z) as [Hpos|]; [|unfold frequency in *; lia].
    apply occurrences_pos, list_elem_of_bind in Hpos as (d & Hw & Hd).
    rewrite (Hall d Hd) in Hw. inversion Hw. }
  assert (words dataset = []) as Hws.
  { unfold words, counts, counts_of. rewrite Hwc, map_to_list_empty. reflexivity. }
  split_and!; [exact Hwc|exact Hws|].
  intros d. unfold cell46. rewrite Hws. apply feature_empty_vocabulary.
Qed.

(* ===================================================================== *)
(** * More on [wordId] and the encoders (cells 14, 16, 46 and 47) *)
(* ===================================================================== *)

(** [wordId] sends a word to the last index at which the list holds it. *)
Lemma wordId_last (ws : list string) :
  ∀ (w : string) (i : nat),
    wordId ws !! w = Some i
    ↔ ws !! i = Some w ∧ ∀ j : nat, i < j → ws !! j ≠ Some w.
Proof.
  induction ws as [|x ws IH] using rev_ind; intros w i.
  - unfold wordId, py_dict. simpl. rewrite lookup_empty. split; [done|].
    intros [H _]. done.
  - rewrite wordId_snoc. destruct (decide (x = w)) as [->|Hne].
    + rewrite lookup_insert_eq. split.
      * intros [= <-]. split; [apply list_lookup_middle; reflexivity|].
        intros j Hj Hw. apply lookup_lt_Some in Hw. rewrite length_app in Hw.
        simpl in Hw. lia.
      * intros [Hi Hlast]. apply lookup_snoc_Some in Hi as [[Hlt _]|[-> _]]; [|done].
        exfalso. apply (Hlast (length ws) Hlt). apply list_lookup_middle. reflexivity.
    + rewrite lookup_insert_ne by done. rewrite IH. split.
      * intros [Hi Hlast]. split; [now apply lookup_app_l_Some|].
        intros j Hj [[_ Hw]|[_ ?]]%lookup_snoc_Some; [|done].
        exact (Hlast j Hj Hw).
      * intros [Hi Hlast]. apply lookup_snoc_Some in Hi as [[_ Hi]|[_ ?]]; [|done].
        split; [exact Hi|]. intros j Hj Hw. apply (Hlast j Hj).
        now apply lookup_app_l_Some.
Qed.

Lemma wordId_elem_of (ws : list string) (w : string) :
  w ∈ ws → ∃ i : nat, wordId ws !! w = Some i ∧ ws !! i = Some w.
Proof.
  induction ws as [|x ws IH] using rev_ind; [inversion 1|].
  rewrite wordId_snoc. intros Hin. destruct (decide (x = w)) as [->|Hne].
  - exists (length ws). rewrite lookup_insert_eq.
    split; [reflexivity|]. apply list_lookup_middle. reflexivity.
  - apply elem_of_app in Hin as [Hin|Hin%list_elem_of_singleton]; [|congruence].
    destruct (IH Hin) as (i & Hi & Hw). exists i. rewrite lookup_insert_ne by done.
    split; [exact Hi|]. now apply lookup_app_l_Some.
Qed.

Lemma wordId_None (ws : list string) (w : string) :
  wordId ws !! w = None ↔ w ∉ ws.
Proof.
  split.
  - intros Hn Hin. destruct (wordId_elem_of ws w Hin) as (i & Hi & _). congruence.
  - intros Hout. destruct (wordId ws !! w) as [i|] eqn:Hi; [|reflexivity].
    apply wordId_last in Hi as [Hi _]. exfalso. apply Hout.
    eapply list_elem_of_lookup_2. exact Hi.
Qed.

(** X11. [dict(zip(words, range(len(words))))] sends a word to the last
    index at which the list holds it and has no entry for a word the list
    does not hold; over the vocabulary of any corpus, where no word
    repeats, [wordId[w] == i] exactly when [words[i] == w]. *)
Theorem wordId_index (ws : list string) (dataset : list datum) (w : string) (i : nat) :
  (wordId ws !! w = Some i
   ↔ ws !! i = Some w ∧ ∀ j : nat, i < j → ws !! j ≠ Some w)
  ∧ (wordId ws !! w = None ↔ w ∉ ws)
  ∧ (wordId (words dataset) !! w = Some i ↔ words dataset !! i = Some w).
Proof.
  split_and!.
  - apply wordId_last.
  - apply wordId_None.
  - apply wordId_lookup, words_NoDup.
Qed.

Lemma total_app (l k : list Z) : total (l ++ k) = (total l + total k)%Z.
Proof. unfold total. induction l as [|x l IH]; simpl; lia. Qed.

Lemma total_replicate_0 (n : nat) : total (replicate n 0%Z) = 0%Z.
Proof. unfold total. induction n as [|n IH]; simpl; lia. Qed.

Lemma total_insert (l : list Z) :
  ∀ (i : nat) (x y : Z), l !! i = Some x → total (<[i := y]> l) = (total l - x + y)%Z.
Proof.
  unfold total. induction l as [|a l IH]; intros [|i] x y Hi; simpl in *; try done.
  - injection Hi as ->. lia.
  - rewrite (IH i x y Hi). lia.
Qed.

(** The loop of [feature] over any list of words, repeated or not: it
    ends without exception and adds one for each token the list holds. *)
Lemma feature_loop_total (ws : list string) :
  ∀ (ts : list string) (feat : list Z),
    length feat = length ws →
    ∃ feat',
      foldM (λ feat w,
          if bool_decide (w ∈ ws) then bump (vocabulary_of ws) feat w else Ok feat)
        feat ts = Ok feat'
      ∧ length feat' = length ws
      ∧ total feat' = (total feat + Z.of_nat (length (filter (λ t, t ∈ ws) ts)))%Z.
Proof.
  induction ts as [|t ts IH]; intros feat Hlen.
  - exists feat. split_and!; [reflexivity|assumption|]. simpl. lia.
  - cbn [foldM]. rewrite filter_cons. case_bool_decide as Ht.
    + destruct (wordId_elem_of ws t Ht) as (k & Hk & Hw).
      pose proof (lookup_lt_Some _ _ _ Hw) as Hlt.
      destruct (lookup_lt_is_Some_2 feat k) as [x Hx]; [lia|].
      unfold bump. simpl v_wordId. rewrite Hk. simpl. rewrite Hx. simpl.
      destruct (IH (<[k := (x + 1)%Z]> feat)) as (feat' & Hrun & Hlen' & Htot);
        [now rewrite length_insert|].
      exists feat'. split_and!; [exact Hrun|exact Hlen'|].
      rewrite Htot, (total_insert feat k x _ Hx). rewrite decide_True by done.
      simpl length. lia.
    + simpl. destruct (IH feat Hlen) as (feat' & Hrun & Hlen' & Htot).
      exists feat'. split_and!; [exact Hrun|exact Hlen'|].
      rewrite Htot. now rewrite decide_False by done.
Qed.

(** X12. Over any list [words], repeated words or not, with [wordId] and
    [wordSet] built from it as in cells 14 and 46, neither encoder ever
    raises: both return the same vector of [len(words) + 1] entries, which
    add up to the number of tokens of the record that [words] holds, plus
    one for the offset.  Tokens outside the vocabulary count nowhere. *)
Theorem feature_counts_known_tokens (ws : list string) (d : datum) :
  ∃ feat,
    Part3.feature (vocabulary_of ws) d = Ok feat
    ∧ Part1.feature (vocabulary_of ws) d = Ok feat
    ∧ length feat = length ws + 1
    ∧ total feat = (Z.of_nat (length (filter (λ t, t ∈ ws) (tokens d))) + 1)%Z.
Proof.
  destruct (feature_loop_total ws (tokens d) (replicate (length ws) 0%Z))
    as (feat' & Hrun & Hlen & Htot); [apply length_replicate|].
  exists (feat' ++ [1%Z]).
  assert (Part3.feature (vocabulary_of ws) d = Ok (feat' ++ [1%Z])) as H3.
  { unfold Part3.feature. simpl v_words. rewrite Hrun. reflexivity. }
  split_and!.
  - exact H3.
  - rewrite <- H3. unfold Part1.feature, Part3.feature. f_equal.
    apply foldM_ext. intros feat w. simpl.
    rewrite (bool_decide_ext (w ∈ wordSet ws) (w ∈ ws)); [reflexivity|].
    unfold wordSet. apply elem_of_list_to_set.
  - rewrite length_app. simpl. lia.
  - rewrite total_app, Htot, total_replicate_0. unfold total. simpl. lia.
Qed.

Lemma bump_raises (V : vocabulary) (feat : list Z) (w : string) (e : exn) :
  bump V feat w = Raise e → e = KeyError ∨ e = IndexError.
Proof.
  unfold bump. destruct (v_wordId V !! w) as [i|]; simpl; [|intros [= <-]; auto].
  destruct (feat !! i); simpl; [discriminate|intros [= <-]; auto].
Qed.

Lemma bump_length (V : vocabulary) (feat feat' : list Z) (w : string) :
  bump V feat w = Ok feat' → length feat' = length feat.
Proof.
  unfold bump. destruct (v_wordId V !! w) as [i|]; simpl; [|discriminate].
  destruct (feat !! i); simpl; [|discriminate]. intros [= <-]. apply length_insert.
Qed.

(** The loop of [feature] with any membership test: a token that passes
    the test and for which [wordId] has no entry, or an index past the
    end, makes the loop raise. *)
Lemma feature_loop_stale (V : vocabulary) (mem : string → bool) (n : nat) (t : string) :
  mem t = true →
  (v_wordId V !! t = None ∨ ∃ i : nat, v_wordId V !! t = Some i ∧ n ≤ i) →
  ∀ (ts : list string) (feat : list Z),
    t ∈ ts → length feat = n →
    ∃ e, foldM (λ feat w, if mem w then bump V feat w else Ok feat) feat ts = Raise e
         ∧ (e = KeyError ∨ e = IndexError).
Proof.
  intros Hmem Hbad. induction ts as [|x ts IH]; intros feat Hin Hlen; [inversion Hin|].
  cbn [foldM]. destruct (decide (x = t)) as [->|Hne].
  - rewrite Hmem. unfold bump. destruct Hbad as [->|(i & -> & Hi)]; simpl.
    + exists KeyError. auto.
    + rewrite lookup_ge_None_2 by lia. simpl. exists IndexError. auto.
  - apply elem_of_cons in Hin as [->|Hin]; [done|].
    destruct (mem x); [|simpl; now apply IH].
    destruct (bump V feat x) as [feat'|e] eqn:Hb; simpl.
    + apply IH; [exact Hin|]. rewrite (bump_length _ _ _ _ Hb). exact Hlen.
    + exists e. split; [reflexivity|]. eapply bump_raises. exact Hb.
Qed.

(** X13. The membership test is all that guards [feat[wordId[w]] += 1]:
    when [wordId] has no entry for a token of the record, or an index past
    the end of [words], and the token passes the test ([w in words] in
    cell 47, [w in wordSet] in cell 16), [feature] raises [KeyError] or
    [IndexError]. *)
Theorem feature_raises_on_stale_wordId (V : vocabulary) (d : datum) (t : string) :
  t ∈ tokens d →
  (v_wordId V !! t = None
   ∨ ∃ i : nat, v_wordId V !! t = Some i ∧ length (v_words V) ≤ i) →
  (t ∈ v_words V →
   ∃ e, Part3.feature V d = Raise e ∧ (e = KeyError ∨ e = IndexError))
  ∧ (t ∈ v_wordSet V →
     ∃ e, Part1.feature V d = Raise e ∧ (e = KeyError ∨ e = IndexError)).
Proof.
  intros Hin Hbad. split; intros Hmem.
  - destruct (feature_loop_stale V (λ w, bool_decide (w ∈ v_words V))
                (length (v_words V)) t (bool_decide_eq_true_2 _ Hmem) Hbad
                (tokens d) (replicate (length (v_words V)) 0%Z) Hin
                (length_replicate _ _)) as (e & He & Hk).
    exists e. split; [|exact Hk]. unfold Part3.feature. rewrite He. reflexivity.
  - destruct (feature_loop_stale V (λ w, bool_decide (w ∈ v_wordSet V))
                (length (v_words V)) t (bool_decide_eq_true_2 _ Hmem) Hbad
                (tokens d) (replicate (length (v_words V)) 0%Z) Hin
                (length_replicate _ _)) as (e & He & Hk).
    exists e. split; [|exact Hk]. unfold Part1.feature. rewrite He. reflexivity.
Qed.

(* ===================================================================== *)
(** * More on the features, the labels and the slices (cells 46 to 52) *)
(* ===================================================================== *)


Lemma cell51_zip (X : list (list Z)) (y : list Z) :
  let P := cell51 X y in
  zip (X_train P) (y_train P) ++ zip (X_valid P) (y_valid P)
  ++ zip (X_test P) (y_test P) = zip X y.
Proof.
  intros P. subst P. unfold cell51.
  cbn [X_train X_valid X_test y_train y_valid y_test].
  assert (length X / 2 ≤ 3 * length X / 4) as H1.
  { apply Nat.div_le_lower_bound; [lia|].
    pose proof (Nat.div_mod_eq (length X) 2).
    pose proof (Nat.mod_upper_bound (length X) 2). lia. }
  remember (length X / 2) as a eqn:Ea. remember (3 * length X / 4) as b eqn:Eb.
  clear Ea Eb. unfold slice.
  rewrite <- !zip_with_take, <- !zip_with_drop, <- zip_with_take.
  now apply three_slices.
Qed.

Lemma mapR_zip_fmap {A B C} (f : A → result B) (h : A → C) (l : list A) (bs : list B) :
  mapR f l = Ok bs →
  (λ bc : B * C, (Ok bc.1, bc.2)) <$> zip bs (h <$> l) = (λ x, (f x, h x)) <$> l.
Proof.
  revert bs. induction l as [|x l IH]; intros bs Hm.
  - injection Hm as <-. reflexivity.
  - simpl in Hm. destruct (f x) as [b|] eqn:Hx; [|discriminate]. simpl in Hm.
    destruct (mapR f l) as [bs'|]; [|discriminate]. injection Hm as <-.
    cbn [fmap list_fmap zip zip_with]. rewrite Hx. f_equal. now apply IH.
Qed.

(** X14. Whatever order the shuffle leaves the records in, cells 46 to 51
    put every record of the dataset in exactly one of the three
    partitions, as its feature vector next to its own rating: the rows of
    the training, validation and test partitions, each paired with its
    label, are, up to their order, the pairs of [feature(d)] and
    [d['stars']] over the records [d] of the dataset.  No record is
    dropped, used twice or given the rating of another. *)
Theorem partitions_hold_each_record_once (shuffle : list datum → list datum)
    (dataset : list datum) :
  shuffle dataset ≡ₚ dataset →
  ∃ P,
    cells_46_to_51 shuffle dataset = Ok P
    ∧ (λ xy : list Z * Z, (Ok xy.1, xy.2))
        <$> (zip (X_train P) (y_train P) ++ zip (X_valid P) (y_valid P)
             ++ zip (X_test P) (y_test P))
      ≡ₚ (λ d, (Part3.feature (cell46 dataset) d, stars d)) <$> dataset.
Proof.
  intros Hperm.
  destruct (mapR_total (Part3.feature (cell46 dataset)) (shuffle dataset))
    as (X & HX & _).
  { intros d.
    destruct (feature_NoDup (words dataset) d (words_NoDup dataset)) as (feat & Hf & _).
    eauto. }
  exists (cell51 X (stars <$> shuffle dataset)).
  split; [unfold cells_46_to_51, cell49; rewrite HX; reflexivity|].
  rewrite (cell51_zip X (stars <$> shuffle dataset)).
  rewrite (mapR_zip_fmap _ stars _ _ HX).
  now apply fmap_Permutation.
Qed.

(** X15. Cell 51 cuts features and labels at the same indices, so every
    row keeps its label: pairing each slice of [X] with the same slice of
    [y] gives the corresponding slice of [zip(X, y)], and the three lists
    of pairs follow one another to give [zip(X, y)]. *)
Theorem slices_keep_rows_with_labels (X : list (list Z)) (y : list Z) :
  let N := length X in
  let P := cell51 X y in
  zip (X_train P) (y_train P) = take (N / 2) (zip X y)
  ∧ zip (X_valid P) (y_valid P) = slice (N / 2) (3 * N / 4) (zip X y)
  ∧ zip (X_test P) (y_test P) = drop (3 * N / 4) (zip X y)
  ∧ zip (X_train P) (y_train P) ++ zip (X_valid P) (y_valid P)
    ++ zip (X_test P) (y_test P) = zip X y.
Proof.
  intros N P. subst P. unfold cell51. fold N.
  cbn [X_train X_valid X_test y_train y_valid y_test].
  assert (N / 2 ≤ 3 * N / 4) as H1.
  { apply Nat.div_le_lower_bound; [lia|].
    pose proof (Nat.div_mod_eq N 2). pose proof (Nat.mod_upper_bound N 2).
    assert (4 * (N / 2) ≤ 2 * N) by lia. lia. }
  remember (N / 2) as a eqn:Ea. remember (3 * N / 4) as b eqn:Eb. clear Ea Eb.
  assert (zip (take a X) (take a y) = take a (zip X y)) as E1
    by (now rewrite zip_with_take).
  assert (zip (slice a b X) (slice a b y) = slice a b (zip X y)) as E2
    by (unfold slice; now rewrite zip_with_take, zip_with_drop).
  assert (zip (drop b X) (drop b y) = drop b (zip X y)) as E3
    by (now rewrite zip_with_drop).
  split_and!; [exact E1|exact E2|exact E3|].
  rewrite E1, E2, E3. now apply three_slices.
Qed.

(** X16. The sizes cell 52 shows are [N], [N//2], [3*N//4 - N//2] and
    [N - 3*N//4]; the training slice is empty below 2 rows, the validation
    slice below 3 rows and the test slice only for no row at all. *)
Theorem slices_empty_below_three (X : list (list Z)) (y : list Z) :
  let N := length X in
  let P := cell51 X y in
  (X_train P ≠ [] ↔ 2 ≤ N)
  ∧ (X_valid P ≠ [] ↔ 3 ≤ N)
  ∧ (X_test P ≠ [] ↔ 1 ≤ N)
  ∧ cell52 X P = (N, N / 2, 3 * N / 4 - N / 2, N - 3 * N / 4).
Proof.
  intros N P.
  assert (∀ l : list (list Z), l ≠ [] ↔ 1 ≤ length l) as Hne.
  { intros [|? ?]; simpl; split; intros; try done; lia. }
  assert (N / 2 ≤ 3 * N / 4 ∧ 3 * N / 4 ≤ N
          ∧ (1 ≤ N / 2 ↔ 2 ≤ N) ∧ (1 ≤ 3 * N / 4 - N / 2 ↔ 3 ≤ N)
          ∧ (1 ≤ N - 3 * N / 4 ↔ 1 ≤ N)) as (H1 & H2 & H3 & H4 & H5).
  { pose proof (Nat.div_mod_eq N 2). pose proof (Nat.mod_upper_bound N 2).
    pose proof (Nat.div_mod_eq (3 * N) 4). pose proof (Nat.mod_upper_bound (3 * N) 4).
    lia. }
  assert (length (X_train P) = N / 2 ∧ length (X_valid P) = 3 * N / 4 - N / 2
          ∧ length (X_test P) = N - 3 * N / 4) as (L1 & L2 & L3).
  { subst P. unfold cell51. fold N. cbn [X_train X_valid X_test].
    remember (N / 2) as a eqn:Ea. remember (3 * N / 4) as b eqn:Eb. clear Ea Eb.
    subst N. rewrite length_slice by lia. rewrite length_take, length_drop. lia. }
  rewrite !Hne, L1, L2, L3. unfold cell52. rewrite L1, L2, L3.
  split_and!; try assumption. reflexivity.
Qed.


(* ===================================================================== *)
(** * More on the mean squared error (cells 36 to 41 and 55) *)
(* ===================================================================== *)

Lemma binary_round_aux_sign (s : bool) (m e : Z) (l : location) :
  negative (binary_round_aux B64.prec B64.emax s m e l) = s
  ∨ binary_round_aux B64.prec B64.emax s m e l = S754_nan.
Proof.
  unfold binary_round_aux.
  destruct (shr_fexp B64.prec B64.emax m e l) as [mrs' e'].
  destruct (shr_fexp B64.prec B64.emax _ e' loc_Exact) as [mrs'' e''].
  destruct (shr_m mrs''); [left; reflexivity| |right; reflexivity].
  destruct (e'' <=? B64.emax - B64.prec)%Z; left; reflexivity.
Qed.

Lemma binary_round_aux_nonneg (m e : Z) (l : location) :
  negative (binary_round_aux B64.prec B64.emax false m e l) = false.
Proof. destruct (binary_round_aux_sign false m e l) as [H| ->]; [exact H|reflexivity]. Qed.

Lemma binary_round_nonneg (p : positive) (e : Z) :
  negative (binary_round B64.prec B64.emax false p e) = false.
Proof.
  unfold binary_round. destruct (shl_align p e _) as [mz ez].
  apply binary_round_aux_nonneg.
Qed.

Lemma of_Z_nonneg (z : Z) : (0 ≤ z)%Z → negative (B64.of_Z z) = false.
Proof.
  intros Hz. destruct z as [|p|p]; [reflexivity| |lia].
  apply binary_round_nonneg.
Qed.

Lemma mul_self_nonneg (d : spec_float) : negative (B64.mul d d) = false.
Proof.
  destruct d as [s|s| |s m e]; try reflexivity; try (destruct s; reflexivity).
  unfold B64.mul, SFmul. destruct s; cbn [xorb]; apply binary_round_aux_nonneg.
Qed.

Lemma add_nonneg (x y : spec_float) :
  negative x = false → negative y = false → negative (B64.add x y) = false.
Proof.
  destruct x as [sx|sx| |sx mx ex], y as [sy|sy| |sy my ey]; simpl;
    intros Hx Hy; subst; try reflexivity.
  unfold B64.add, SFadd. simpl cond_Zopp.
  change (Z.pos ?a + Z.pos ?b)%Z with (Z.pos (a + b)).
  apply binary_round_nonneg.
Qed.

Lemma div_nonneg (x y : spec_float) :
  negative x = false → negative y = false → negative (B64.div x y) = false.
Proof.
  destruct x as [sx|sx| |sx mx ex], y as [sy|sy| |sy my ey]; simpl;
    intros Hx Hy; subst; try reflexivity.
  unfold B64.div, SFdiv.
  destruct (SFdiv_core_binary B64.prec B64.emax (Z.pos mx) ex (Z.pos my) ey) as [[mz ez] lz].
  apply binary_round_aux_nonneg.
Qed.

Lemma nonneg_not_below_zero (v : spec_float) :
  negative v = false → B64.ltb v B64.zero = false.
Proof. destruct v as [s|s| |s m e]; simpl; intros Hv; subst; reflexivity. Qed.

Lemma sqdiff_nonneg (a : spec_float) (b : Z) (d : spec_float) :
  sqdiff a b = Ok d → negative d = false.
Proof.
  unfold sqdiff. destruct (float_of_int b) as [fb|]; simpl; [|discriminate].
  intros [= <-]. apply mul_self_nonneg.
Qed.

Lemma mapR_sqdiff_nonneg (pairs : list (spec_float * Z)) (ds : list spec_float) :
  mapR (λ ab, sqdiff ab.1 ab.2) pairs = Ok ds → Forall (λ d, negative d = false) ds.
Proof.
  revert ds. induction pairs as [|[a b] pairs IH]; intros ds Hm.
  - injection Hm as <-. constructor.
  - simpl in Hm. destruct (sqdiff a b) as [d|] eqn:Hd; [|discriminate]. simpl in Hm.
    destruct (mapR _ pairs) as [ds'|]; [|discriminate]. injection Hm as <-.
    constructor; [eapply sqdiff_nonneg; exact Hd|now apply IH].
Qed.

Lemma sum_nonneg (ds : list spec_float) :
  Forall (λ d, negative d = false) ds →
  ∀ acc, negative acc = false → negative (foldl B64.add acc ds) = false.
Proof.
  induction 1 as [|d ds Hd _ IH]; intros acc Hacc; [exact Hacc|].
  simpl. apply IH. now apply add_nonneg.
Qed.

Lemma mse_of_nonneg (ps : list spec_float) (y : list Z) (v : spec_float) :
  mse_of ps y = Ok v → negative v = false.
Proof.
  unfold mse_of.
  destruct (mapR _ (zip ps y)) as [ds|] eqn:Hm; [|discriminate]. simpl.
  apply mapR_sqdiff_nonneg in Hm.
  destruct ds as [|d ds]; [discriminate|].
  unfold py_sum, py_truediv. intros [= <-].
  apply div_nonneg; [|apply binary_round_nonneg].
  exact (sum_nonneg (d :: ds) Hm (B64.of_Z 0) eq_refl).
Qed.

Section MoreMSE.

Context {Model : Type}.
Variable predict : Model → list (list Z) → result (list spec_float).

(** X17. A value [MSE] returns is never below zero: it is [+0.0], a
    positive number, [+inf] or a NaN, never a negative number and never
    [-0.0]. *)
Theorem MSE_not_below_zero (model : Model) (X : list (list Z)) (y : list Z)
    (v : spec_float) :
  MSE predict model X y = Ok v →
  B64.ltb v B64.zero = false ∧ negative v = false.
Proof.
  unfold MSE. destruct (predict model X) as [ps|]; [|discriminate]. simpl.
  intros Hv. apply mse_of_nonneg in Hv. split; [now apply nonneg_not_below_zero|exact Hv].
Qed.


(** X19. In Part 2, when the predictions are equal to the labels of a
    list that is not empty, cell 39 computes the mean [+0.0]; with it,
    cell 41 computes [R2 = 1.0] exactly for every variance that is a
    non-zero number, and a NaN, without exception, for the variance 0 of
    constant labels. *)
Theorem R2_of_exact_predictions (model : Model) (X : list (list Z)) (y : list Z)
    (predictions : list spec_float) (var : spec_float) :
  predict model X = Ok predictions →
  y ≠ [] →
  Forall2 (λ a b, float_eq_int a b = Ok true) predictions y →
  Part2.cells_36_39 predict model X y = Ok (S754_zero false)
  ∧ (B64.is_nan var = false → B64.eqb var B64.zero = false →
     Part2.R2 (S754_zero false) var = B64.of_Z 1)
  ∧ (B64.eqb var B64.zero = true →
     Part2.R2 (S754_zero false) var = S754_nan).
Proof.
  intros Hp Hy Heq. split_and!.
  - unfold Part2.cells_36_39. rewrite Hp. simpl.
    exact (mse_of_equal predictions y Hy Heq).
  - destruct var as [s|s| |s m e]; try discriminate; intros _ _; destruct s; reflexivity.
  - destruct var as [s|s| |s m e]; try (destruct s; discriminate); try discriminate.
    intros _. destruct s; reflexivity.
Qed.

End MoreMSE.

(* ===================================================================== *)
(** * More on the selection (cells 51 and 56 to 59) *)
(* ===================================================================== *)

Ltac loads_only :=
  repeat (apply Forall_cons_2;
          [eexists; split; [(left; reflexivity) || (right; reflexivity)|discriminate]|]);
  apply Forall_nil_2.

Section MoreSelection.

Context {Model : Type}.
Variable fit : pynum → list (list Z) → list Z → result Model.
Variable predict : Model → list (list Z) → result (list spec_float).

Implicit Types (g : globals Model) (lamb : pynum) (lambs : list pynum).

(** A turn over a candidate whose fit or error raises: the exception goes
    up, the globals stay, and the events are reads of the training and the
    validation partition only, no line is printed. *)
Lemma cell57_body_raise lamb g (e : exn) :
  evaluate fit predict (data g) lamb = Raise e →
  ∃ t : list event,
    cell57_body fit predict lamb g = (t, g, Raise e)
    ∧ Forall (λ ev, ∃ p, (ev = Load_X p ∨ ev = Load_y p) ∧ p ≠ Test) t.
Proof.
  intros Hev. rewrite cell57_body_cases. cbv zeta. unfold evaluate in Hev.
  destruct (fit lamb _ _) as [model|e0]; simpl in Hev.
  - destruct (MSE predict model (X_train _) _) as [mt|e1]; simpl in Hev.
    + destruct (MSE predict model (X_valid _) _) as [mv|e2]; simpl in Hev;
        [discriminate|].
      injection Hev as ->. eexists. split; [reflexivity|]. loads_only.
    + injection Hev as ->. eexists. split; [reflexivity|]. loads_only.
  - injection Hev as ->. eexists. split; [reflexivity|]. loads_only.
Qed.

(** How the loop fails: on the first candidate whose evaluation raises. *)
Lemma selection_loop_failure lambs :
  ∀ g (best : option (evaluation Model)) (t : list event) g' (e : exn),
    g = with_best g best →
    selection_loop fit predict lambs g = (t, g', Raise e) →
    ∃ lambs1 lamb lambs2 (evs : list (evaluation Model)) (t' : list event),
      lambs = lambs1 ++ lamb :: lambs2
      ∧ mapR (evaluate fit predict (data g)) lambs1 = Ok evs
      ∧ evaluate fit predict (data g) lamb = Raise e
      ∧ g' = with_best g (foldl keep best evs)
      ∧ t = mjoin (zip_with candidate_trace lambs1 evs) ++ t'
      ∧ Forall (λ ev, ∃ p, (ev = Load_X p ∨ ev = Load_y p) ∧ p ≠ Test) t'.
Proof.
  induction lambs as [|lamb lambs IH]; intros g best t g' e Hg Hrun; [discriminate|].
  rewrite selection_loop_cons in Hrun.
  destruct (evaluate fit predict (data g) lamb) as [ev|e0] eqn:Hev.
  - rewrite (cell57_body_ok fit predict lamb g ev best Hev Hg) in Hrun.
    destruct (selection_loop fit predict lambs (with_best g (keep best ev)))
      as [[t2 g2] r2] eqn:H2.
    injection Hrun as <- <- ->.
    destruct (IH _ (keep best ev) _ _ _ eq_refl H2)
      as (l1 & lm & l2 & evs & t' & -> & Hm & Hlm & -> & -> & Ht').
    exists (lamb :: l1), lm, l2, (ev :: evs), t'.
    split_and!; try done; simpl in *;
      try (rewrite Hev; simpl; rewrite Hm; reflexivity);
      try (now rewrite <- app_assoc).
  - destruct (cell57_body_raise lamb g e0 Hev) as (t' & Hbody & Ht').
    rewrite Hbody in Hrun. injection Hrun as <- <- <-.
    exists [], lamb, lambs, [], t'. split_and!; try done.
Qed.

(** X20. When cell 57 raises, it is on the first candidate whose fit or
    [MSE] raises, with that exception: the comparison with [bestMSE] never
    raises.  The candidates before it were all evaluated and printed, the
    globals hold the best of them (nothing, if there is none), the failing
    turn has only read the training and validation partitions and printed
    no line, and no later candidate is touched. *)
Theorem cell57_stops_at_first_failure (d : partitions) (t : list event) g (e : exn) :
  cell57 fit predict (initial d) = (t, g, Raise e) →
  ∃ lambs1 lamb lambs2 (evs : list (evaluation Model)) (t' : list event),
    candidates = lambs1 ++ lamb :: lambs2
    ∧ mapR (evaluate fit predict d) lambs1 = Ok evs
    ∧ evaluate fit predict d lamb = Raise e
    ∧ g = with_best (initial d) (foldl keep None evs)
    ∧ t = mjoin (zip_with candidate_trace lambs1 evs) ++ t'
    ∧ Forall (λ ev, ∃ p, (ev = Load_X p ∨ ev = Load_y p) ∧ p ≠ Test) t'.
Proof.
  intros Hrun.
  exact (selection_loop_failure candidates (initial d) None t g e eq_refl Hrun).
Qed.

Lemma foldl_keep_stable (evs : list (evaluation Model)) (b : evaluation Model) :
  (∀ ev, ev ∈ evs → B64.ltb (ev_valid ev) (ev_valid b) = false) →
  foldl keep (Some b) evs = Some b.
Proof.
  induction evs as [|ev evs IH]; intros Hall; [reflexivity|].
  simpl. rewrite (Hall ev) by (now left). apply IH.
  intros ev' Hin. apply Hall. now right.
Qed.

Lemma foldl_keep_twice (evs : list (evaluation Model)) :
  foldl keep (foldl keep None evs) evs = foldl keep None evs.
Proof.
  destruct (decide (evs = [])) as [->|Hne]; [reflexivity|].
  destruct (foldl_keep_first_min evs Hne) as (k & ev & -> & _ & _ & Hmin & _).
  apply foldl_keep_stable. intros ev' [j Hj]%list_elem_of_lookup_1. eauto.
Qed.

(** X21. Running cell 57 a second time without cell 56 in between, when
    no turn raises, repeats the same reads and lines and leaves
    [bestModel] and [bestMSE] as the first run left them. *)
Theorem cell57_again_changes_nothing (d : partitions) (evs : list (evaluation Model)) :
  mapR (evaluate fit predict d) candidates = Ok evs →
  ∃ (t : list event) g,
    cell57 fit predict (initial d) = (t, g, Ok ())
    ∧ cell57 fit predict g = (t, g, Ok ()).
Proof.
  intros Hm. unfold cell57.
  pose proof (selection_loop_ok fit predict candidates (initial d) None evs Hm eq_refl) as H1.
  eexists _, _. split; [exact H1|].
  set (g := with_best (initial d) (foldl keep None evs)).
  pose proof (selection_loop_ok fit predict candidates g (foldl keep None evs) evs Hm eq_refl)
    as H2.
  rewrite H2. rewrite foldl_keep_twice. reflexivity.
Qed.

Lemma evaluate_needs_labels (d : partitions) lamb :
  y_train d = [] ∨ y_valid d = [] →
  ∃ e, evaluate fit predict d lamb = Raise e.
Proof.
  intros Hempty. unfold evaluate, MSE.
  destruct (fit lamb _ _) as [model|e0]; simpl; [|eauto].
  destruct (predict model (X_train d)) as [ps|e1]; simpl; [|eauto].
  destruct (mse_of ps (y_train d)) as [mt|e2] eqn:Ht; simpl; [|eauto].
  destruct Hempty as [Htr|Hva].
  - rewrite Htr, mse_of_empty in Ht by (now right). discriminate.
  - destruct (predict model (X_valid d)) as [ps'|e3]; simpl; [|eauto].
    rewrite Hva, mse_of_empty by (now right). simpl. eauto.
Qed.

(** X22. With fewer than 3 rows cell 51 leaves the training or the
    validation labels empty, and cell 57 then raises in its first turn,
    whatever the solver does: nothing is printed, nothing is selected and
    the test partition is not read. *)
Theorem cell57_needs_three_records (X : list (list Z)) (y : list Z) :
  length X < 3 →
  ∃ (t : list event) (e : exn),
    cell57 fit predict (initial (cell51 X y)) = (t, initial (cell51 X y), Raise e)
    ∧ Forall (λ ev, ∃ p, (ev = Load_X p ∨ ev = Load_y p) ∧ p ≠ Test) t.
Proof.
  intros Hlen.
  assert (y_train (cell51 X y) = [] ∨ y_valid (cell51 X y) = []) as Hempty.
  { destruct X as [|a [|b [|c X]]]; simpl in Hlen; [| | |lia].
    - left. reflexivity.
    - left. reflexivity.
    - right. unfold cell51. simpl. destruct y; reflexivity. }
  destruct (evaluate_needs_labels (cell51 X y) (PyFloat lit_0_01) Hempty) as [e He].
  destruct (cell57_body_raise (PyFloat lit_0_01) (initial (cell51 X y)) e He)
    as (t & Hbody & Ht).
  exists t, e. split; [|exact Ht].
  unfold cell57, candidates. rewrite selection_loop_cons, Hbody. reflexivity.
Qed.

End MoreSelection.

(* ===================================================================== *)
(** * The other cells on examples *)
(* ===================================================================== *)

Example split_raw : split "Good food, GOOD place!" = ["Good"; "food,"; "GOOD"; "place!"].
Proof. vm_compute. reflexivity. Qed.

(** [split] also cuts at the no-break space and at the next-line control,
    as ['a\xa0b\x85c'.split()] does. *)
Example split_no_break_space :
  split (String (Ascii.ascii_of_nat 97) (String (Ascii.ascii_of_nat 160)
          (String (Ascii.ascii_of_nat 98) (String (Ascii.ascii_of_nat 133)
            (String (Ascii.ascii_of_nat 99) EmptyString)))))
  = ["a"; "b"; "c"].
Proof. vm_compute. reflexivity. Qed.

(** The white space of [split] is these twelve characters. *)
Example isspace_codes :
  filter (λ n, isspace (Ascii.ascii_of_nat n)) (seq 0 256)
  = [9; 10; 11; 12; 13; 28; 29; 30; 31; 32; 133; 160].
Proof. vm_compute. reflexivity. Qed.

(** [lower] maps the capital letters from 192 on as well, the
    multiplication sign 215 apart, and leaves the sharp s 223 alone. *)
Example lower_capitals :
  filter (λ n, negb (code (lower_char (Ascii.ascii_of_nat n)) =? n)) (seq 0 256)
  = seq 65 26 ++ seq 192 23 ++ seq 216 7
  ∧ Forall (λ n, code (lower_char (Ascii.ascii_of_nat n)) = n + 32)
      (seq 65 26 ++ seq 192 23 ++ seq 216 7).
Proof.
  split; [vm_compute; reflexivity|]. apply Forall_forall. vm_compute. intros n Hn.
  repeat (apply elem_of_cons in Hn as [->|Hn]; [reflexivity|]). inversion Hn.
Qed.

(** Cell 6 counts 15 distinct words in the small corpus, cell 8 counts 9. *)
Example distinct_words_reviews :
  (size (wordCount6 Toy.reviews), size (wordCount Toy.reviews)) = (15, 9).
Proof. vm_compute. reflexivity. Qed.

(** With a repeated word, the counts go to its last index. *)
Example feature_repeated_word :
  Part3.feature (vocabulary_of ["a"; "b"; "a"]) {| text := "a a b c"; stars := 1 |}
  = Ok [0; 1; 2; 1]%Z.
Proof. vm_compute. reflexivity. Qed.

Example sizes_of_three :
  cell52 [[1]; [2]; [3]]%Z (cell51 [[1]; [2]; [3]]%Z [1; 2; 3]%Z) = (3, 1, 1, 1).
Proof. reflexivity. Qed.

(** [R2] for the error 1 and the variance 2 is one half. *)
Example R2_half :
  Part2.R2 (B64.of_Z 1) (B64.of_Z 2) = B64.div (B64.of_Z 1) (B64.of_Z 2).
Proof. vm_compute. reflexivity. Qed.

(* ===================================================================== *)
(** * The further theorems with hypotheses, at concrete inputs *)
(* ===================================================================== *)

Lemma vocabulary_ignores_record_order_witness :
  reverse Toy.reviews ≡ₚ Toy.reviews
  ∧ wordCount (reverse Toy.reviews) = wordCount Toy.reviews
  ∧ counts (reverse Toy.reviews) = counts Toy.reviews
  ∧ words (reverse Toy.reviews) = words Toy.reviews
  ∧ cell46 (reverse Toy.reviews) = cell46 Toy.reviews.
Proof.
  split; [apply reverse_Permutation|].
  apply (vocabulary_ignores_record_order Toy.reviews (reverse Toy.reviews)).
  apply reverse_Permutation.
Defined.

Lemma words_ties_reverse_alphabetical_witness :
  0 < 1
  ∧ words Toy.reviews !! 0 = Some "good"
  ∧ words Toy.reviews !! 1 = Some "food"
  ∧ frequency "good" Toy.reviews = frequency "food" Toy.reviews
  ∧ String.ltb "food" "good" = true.
Proof.
  assert (words Toy.reviews !! 0 = Some "good") as H0 by (vm_compute; reflexivity).
  assert (words Toy.reviews !! 1 = Some "food") as H1 by (vm_compute; reflexivity).
  assert (frequency "good" Toy.reviews = frequency "food" Toy.reviews) as Hf
    by (vm_compute; reflexivity).
  split_and!; [lia|exact H0|exact H1|exact Hf|].
  apply (words_ties_reverse_alphabetical Toy.reviews 0 1 "good" "food");
    [lia|exact H0|exact H1|exact Hf].
Defined.

Lemma corpus_without_tokens_witness :
  (∀ d, d ∈ Sample.quiet → tokens d = [])
  ∧ wordCount Sample.quiet = ∅
  ∧ words Sample.quiet = []
  ∧ ∀ d, Part3.feature (cell46 Sample.quiet) d = Ok [1%Z].
Proof.
  assert (∀ d, d ∈ Sample.quiet → tokens d = []) as H.
  { intros d Hd. unfold Sample.quiet in Hd.
    repeat (apply elem_of_cons in Hd as [->|Hd]; [vm_compute; reflexivity|]).
    inversion Hd. }
  split; [exact H|]. apply (corpus_without_tokens Sample.quiet H).
Defined.

Lemma feature_raises_on_stale_wordId_witness :
  "food" ∈ tokens {| text := "Good food"; stars := 4 |}
  ∧ (v_wordId Sample.stale !! "food" = None
     ∨ ∃ i : nat, v_wordId Sample.stale !! "food" = Some i
                  ∧ length (v_words Sample.stale) ≤ i)
  ∧ ("food" ∈ v_words Sample.stale →
     ∃ e, Part3.feature Sample.stale {| text := "Good food"; stars := 4 |} = Raise e
          ∧ (e = KeyError ∨ e = IndexError))
  ∧ ("food" ∈ v_wordSet Sample.stale →
     ∃ e, Part1.feature Sample.stale {| text := "Good food"; stars := 4 |} = Raise e
          ∧ (e = KeyError ∨ e = IndexError)).
Proof.
  assert ("food" ∈ tokens {| text := "Good food"; stars := 4 |}) as Hin.
  { change (tokens {| text := "Good food"; stars := 4 |}) with ["good"; "food"].
    apply elem_of_cons. right. apply elem_of_cons. now left. }
  assert (v_wordId Sample.stale !! "food" = None
          ∨ ∃ i : nat, v_wordId Sample.stale !! "food" = Some i
                       ∧ length (v_words Sample.stale) ≤ i) as Hbad
    by (left; reflexivity).
  split; [exact Hin|]. split; [exact Hbad|].
  apply (feature_raises_on_stale_wordId Sample.stale _ "food" Hin Hbad).
Defined.

Lemma partitions_hold_each_record_once_witness :
  reverse Toy.reviews ≡ₚ Toy.reviews
  ∧ ∃ P,
      cells_46_to_51 reverse Toy.reviews = Ok P
      ∧ (λ xy : list Z * Z, (Ok xy.1, xy.2))
          <$> (zip (X_train P) (y_train P) ++ zip (X_valid P) (y_valid P)
               ++ zip (X_test P) (y_test P))
        ≡ₚ (λ d, (Part3.feature (cell46 Toy.reviews) d, stars d)) <$> Toy.reviews.
Proof.
  split; [apply reverse_Permutation|].
  apply (partitions_hold_each_record_once reverse Toy.reviews). apply reverse_Permutation.
Defined.

Lemma MSE_not_below_zero_witness :
  ∃ v,
    MSE Toy.predict (B64.of_Z 3) [[1; 1]; [0; 1]]%Z [1; 5]%Z = Ok v
    ∧ B64.ltb v B64.zero = false ∧ negative v = false.
Proof.
  eexists. split; [vm_compute; reflexivity|].
  apply (MSE_not_below_zero Toy.predict (B64.of_Z 3) [[1; 1]; [0; 1]]%Z [1; 5]%Z).
  vm_compute. reflexivity.
Defined.


Lemma R2_of_exact_predictions_witness :
  Toy.predict (B64.of_Z 3) [[1; 1]; [0; 1]]%Z = Ok [B64.of_Z 3; B64.of_Z 3]
  ∧ [3; 3]%Z ≠ []
  ∧ Forall2 (λ a b, float_eq_int a b = Ok true) [B64.of_Z 3; B64.of_Z 3] [3; 3]%Z
  ∧ Part2.cells_36_39 Toy.predict (B64.of_Z 3) [[1; 1]; [0; 1]]%Z [3; 3]%Z
    = Ok (S754_zero false)
  ∧ (B64.is_nan (B64.of_Z 2) = false → B64.eqb (B64.of_Z 2) B64.zero = false →
     Part2.R2 (S754_zero false) (B64.of_Z 2) = B64.of_Z 1)
  ∧ (B64.eqb (B64.of_Z 2) B64.zero = true →
     Part2.R2 (S754_zero false) (B64.of_Z 2) = S754_nan).
Proof.
  assert (Forall2 (λ a b, float_eq_int a b = Ok true)
            [B64.of_Z 3; B64.of_Z 3] [3; 3]%Z) as Heq
    by (repeat constructor).
  split_and!; [reflexivity|discriminate|exact Heq|..];
    apply (R2_of_exact_predictions Toy.predict (B64.of_Z 3) [[1; 1]; [0; 1]]%Z
             [3; 3]%Z [B64.of_Z 3; B64.of_Z 3] (B64.of_Z 2));
    reflexivity || discriminate || exact Heq.
Defined.

Lemma cell57_stops_at_first_failure_witness :
  ∃ (t : list event) g,
    cell57 Sample.fit_below_ten Toy.predict (initial Toy.parts) = (t, g, Raise ValueError)
    ∧ ∃ lambs1 lamb lambs2 (evs : list (evaluation spec_float)) (t' : list event),
        candidates = lambs1 ++ lamb :: lambs2
        ∧ mapR (evaluate Sample.fit_below_ten Toy.predict Toy.parts) lambs1 = Ok evs
        ∧ evaluate Sample.fit_below_ten Toy.predict Toy.parts lamb = Raise ValueError
        ∧ g = with_best (initial Toy.parts) (foldl keep None evs)
        ∧ t = mjoin (zip_with candidate_trace lambs1 evs) ++ t'
        ∧ Forall (λ ev, ∃ p, (ev = Load_X p ∨ ev = Load_y p) ∧ p ≠ Test) t'.
Proof.
  eexists _, _. split; [vm_compute; reflexivity|].
  apply (cell57_stops_at_first_failure Sample.fit_below_ten Toy.predict Toy.parts).
  vm_compute. reflexivity.
Defined.

Lemma cell57_again_changes_nothing_witness :
  ∃ evs,
    mapR (evaluate Toy.fit Toy.predict Toy.parts) candidates = Ok evs
    ∧ ∃ (t : list event) g,
        cell57 Toy.fit Toy.predict (initial Toy.parts) = (t, g, Ok ())
        ∧ cell57 Toy.fit Toy.predict g = (t, g, Ok ()).
Proof.
  eexists. split; [vm_compute; reflexivity|].
  eapply (cell57_again_changes_nothing Toy.fit Toy.predict Toy.parts).
  vm_compute. reflexivity.
Defined.

Lemma cell57_needs_three_records_witness :
  length [[2; 1]; [0; 1]]%Z < 3
  ∧ ∃ (t : list event) (e : exn),
      cell57 Toy.fit Toy.predict (initial (cell51 [[2; 1]; [0; 1]]%Z [4; 5]%Z))
      = (t, initial (cell51 [[2; 1]; [0; 1]]%Z [4; 5]%Z), Raise e)
      ∧ Forall (λ ev, ∃ p, (ev = Load_X p ∨ ev = Load_y p) ∧ p ≠ Test) t.
Proof.
  assert (length [[2; 1]; [0; 1]]%Z < 3) as H by (simpl; lia).
  split; [exact H|].
  apply (cell57_needs_three_records Toy.fit Toy.predict [[2; 1]; [0; 1]]%Z [4; 5]%Z H).
Defined.
